(** * eth-wallpaper-gen: the wallpaper generator of [main.py]

    A shallow embedding of [src/ethwallpaper/eth-wallpaper-gen/main.py]:
    the polygon tables, the geometry scaler [scale], the crop of
    [load_image], the brightness [filter], the in-place pixel remap of
    [main] and the command-line entry point.

    Numbers.  Python's [float] is IEEE binary64.  The arithmetic of [scale]
    and of the crop box is written once over an interface [Number] and read
    twice: over Rocq's primitive binary64 floats (what the program computes)
    and over the real numbers (the exact arithmetic the algebraic statements
    speak of).  In binary64 [a ** 2] is taken as the correctly rounded
    [a * a] and [a ** 0.5] as the correctly rounded square root; the
    interpreter computes both with the [pow] of the C library, whose last
    bit may differ from these on some inputs and which raises
    [OverflowError] instead of returning an infinity.

    Pixel access.  [getpixel] and [putpixel] accept the indices of the
    grid; the imaging library also accepts a negative index, counted from
    the far edge ([pil_getpixel], [pil_putpixel]).  The remap loop is given
    with both: [remap] and [main] on the grid, [pil_remap] and [pil_main]
    with the library's access, which return what [remap] and [main] return
    wherever these succeed.

    Exceptions.  A Python exception ends the run; every exception
    ([ZeroDivisionError], [KeyError], [IndexError], [ValueError], ...) is
    the one failure [None] of the option monad.

    Collaborators.  Line drawing ([draw_outline]) and the watermark
    ([add_watermark]) are delegated by the program to the imaging library;
    they are parameters of the embedding. *)

From Stdlib Require Import ZArith QArith Qround Qminmax Qabs Reals Lra Lia.
From Stdlib Require Import List Bool String Ascii FinFun.
From Stdlib Require Import Floats.
Import ListNotations.

Set Warnings "-inexact-float".

Local Open Scope Z_scope.

(* ================================================================== *)
(** ** Failure: the option monad *)

Module Err.

Definition bind {A B : Type} (m : option A) (k : A -> option B) : option B :=
    match m with
    | Some a => k a
    | None => None
    end.

  (** A [for] loop whose body may raise: the state is threaded through the
      items in order and the first failure ends the loop. *)
Fixpoint foldM {A S : Type} (body : A -> S -> option S)
           (items : list A) (s : S) : option S :=
    match items with
    | [] => Some s
    | a :: rest => bind (body a s) (foldM body rest)
    end.

  (** A list comprehension whose element expression may raise. *)
Fixpoint mapM {A B : Type} (f : A -> option B) (l : list A) : option (list B) :=
    match l with
    | [] => Some []
    | a :: rest =>
        bind (f a) (fun b => bind (mapM f rest) (fun bs => Some (b :: bs)))
    end.

End Err.

Notation "x <- m ;; k" := (Err.bind m (fun x => k))
  (at level 61, m at next level, right associativity).
Notation "' p <- m ;; k" := (Err.bind m (fun p => k))
  (at level 61, p pattern, m at next level, right associativity).

(* ================================================================== *)
(** ** Numbers *)

(** The operations the program applies to numbers.  [quo] is [/] on a
    non-zero divisor; [is_zero] is the test that makes [/] raise. *)
Class Number (A : Type) : Type := {
  of_int : Z -> A;
  add : A -> A -> A;
  sub : A -> A -> A;
  mul : A -> A -> A;
  quo : A -> A -> A;
  is_zero : A -> bool;
  sqr : A -> A;
  root : A -> A;
  gt : A -> A -> bool
}.

(** [a / b]: raises [ZeroDivisionError] when [b] is zero. *)
Definition div {A : Type} `{Number A} (a b : A) : option A :=
  if is_zero b then None else Some (quo a b).

(** A decimal literal [n/d] of the source text, read in the domain. *)
Definition lit {A : Type} `{Number A} (q : Q) : A :=
  quo (of_int (Qnum q)) (of_int (Zpos (Qden q))).

(** An [int] as a binary64 float, correctly rounded. *)
Definition Z2F (z : Z) : float :=
  SF2Prim (binary_normalize prec emax z 0 false).

#[export] Instance float_Number : Number float := {
  of_int := Z2F;
  add := PrimFloat.add;
  sub := PrimFloat.sub;
  mul := PrimFloat.mul;
  quo := PrimFloat.div;
  is_zero := fun a => PrimFloat.eqb a 0%float;
  sqr := fun a => PrimFloat.mul a a;
  root := PrimFloat.sqrt;
  gt := fun a b => PrimFloat.ltb b a
}.

#[export] Instance real_Number : Number R := {
  of_int := IZR;
  add := Rplus;
  sub := Rminus;
  mul := Rmult;
  quo := Rdiv;
  is_zero := fun a => if Req_EM_T a 0%R then true else false;
  sqr := fun a => (a * a)%R;
  root := R_sqrt.sqrt;
  gt := fun a b => if Rlt_dec b a then true else false
}.

(** The exact value of a finite float; [None] for an infinity or a NaN. *)
Definition F2Q (f : float) : option Q :=
  match Prim2SF f with
  | S754_zero _ => Some 0%Q
  | S754_finite s m e =>
      let n := if s then Zneg m else Zpos m in
      Some (match e with
            | Zneg k => Qmake n (2 ^ k)
            | _ => inject_Z (n * 2 ^ e)
            end)
  | _ => None
  end.

(** Truncation towards zero, on exact values. *)
Definition Qtrunc (q : Q) : Z :=
  if Qle_bool 0 q then Qfloor q else Qceiling q.

(** [int(f)] of a float: truncation; raises on an infinity or a NaN. *)
Definition int (f : float) : option Z := option_map Qtrunc (F2Q f).

(** [round(f)] of a float to an [int]: nearest, ties to even. *)
Definition Qround_even (q : Q) : Z :=
  let lo := Qfloor q in
  match Qcompare (q - inject_Z lo) (1 # 2) with
  | Lt => lo
  | Gt => lo + 1
  | Eq => if Z.even lo then lo else lo + 1
  end.

Definition round (f : float) : option Z := option_map Qround_even (F2Q f).

(** [range(a, b)] *)
Definition range (a b : Z) : list Z :=
  map (fun i => a + Z.of_nat i) (seq 0 (Z.to_nat (b - a))).

(* ================================================================== *)
(** ** Dictionaries with string keys, in insertion order *)

Definition dict (V : Type) : Type := list (string * V).

Fixpoint lookup {V : Type} (d : dict V) (k : string) : option V :=
  match d with
  | [] => None
  | (k', v) :: d' => if String.eqb k k' then Some v else lookup d' k
  end.

(** [d[k] = v]: an existing key keeps its place. *)
Fixpoint store {V : Type} (d : dict V) (k : string) (v : V) : dict V :=
  match d with
  | [] => [(k, v)]
  | (k', v') :: d' =>
      if String.eqb k k' then (k, v) :: d' else (k', v') :: store d' k v
  end.

(* ================================================================== *)
(** ** The tables of the module *)

(** A polygon is a list of vertices [(x, y)]. *)
Definition polygon (A : Type) : Type := list (A * A).

(** The decimal text of the relative polygon co-ordinates. *)
Definition magics_text : dict (polygon Q) :=
  [ ("top-left"%string,
      [(0.500, 0.183); (0.393, 0.445); (0.500, 0.538); (0.500, 0.183)]%Q);
    ("top-right"%string,
      [(0.500, 0.183); (0.604, 0.445); (0.500, 0.538); (0.500, 0.183)]%Q);
    ("bottom-left"%string,
      [(0.392, 0.472); (0.500, 0.567); (0.500, 0.697); (0.392, 0.472)]%Q);
    ("bottom-right"%string,
      [(0.605, 0.472); (0.500, 0.567); (0.500, 0.697); (0.605, 0.472)]%Q) ].

(** [magics], as the module holds it when the process starts. *)
Definition magics {A : Type} `{Number A} : dict (polygon A) :=
  map (fun kv => (fst kv, map (fun v => (lit (fst v), lit (snd v))) (snd kv)))
      magics_text.

(** mirror directions *)
Definition mirrors : dict string :=
  [ ("top-left", "bottom-right");
    ("top-right", "bottom-left");
    ("bottom-left", "top-right");
    ("bottom-right", "top-left") ]%string.

Definition WATERMARK : string := "ethwallpaper.co".
Definition FONT : string := "Aquabase.ttf".
Definition WATERMARK_OPACITY : Q := 0.3.
Definition WATERMARK_RATIO : Z := 40.

(* ================================================================== *)
(** ** [scale]: relative polygon to absolute polygon *)

Section Scale.
Context {A : Type} `{Number A}.

Definition half : A := lit 0.5.

  (** One turn of the loop of [scale]: the vertex pushed away from the
      centre [(0.5, 0.5)] by the factor [scale].  Both divisions are by
      [dist]. *)
Definition resize (scale : A) (v : A * A) : option (A * A) :=
    let '(x, y) := v in
    let dist := root (add (sqr (sub y half)) (sqr (sub x half))) in
    sin <- div (sub y half) dist ;;
    cos <- div (sub x half) dist ;;
    let dist := mul dist scale in
    Some (add (mul dist cos) half, add (mul dist sin) half).

Definition scale (magic : polygon A) (scale : A) (width height : Z)
    : option (polygon A) :=
    resized_magic <- Err.mapM (resize scale) magic ;;
    Some (map (fun v => (mul (fst v) (of_int width), mul (snd v) (of_int height)))
              resized_magic).

  (** The first loop of [main]: every entry of the table is overwritten by
      its scaled polygon. *)
Definition rescale (table : dict (polygon A)) (eth_scale : A)
             (width height : Z) : option (dict (polygon A)) :=
    Err.foldM (fun kv t =>
                 scaled <- scale (snd kv) eth_scale width height ;;
                 Some (store t (fst kv) scaled))
              table table.

  (** The crop box [(left, upper, right, lower)] that [load_image] hands to
      [crop], for an image of the given size. *)
Definition crop_box (width height : Z) : option (A * A * A * A) :=
    let m := quo (lit 1920.00) (of_int 1266) in
    ratio <- div (of_int width) (of_int height) ;;
    if gt ratio m then
      let diff := sub (of_int width) (mul m (of_int height)) in
      Some (quo diff (of_int 2), of_int 0, mul m (of_int height), of_int height)
    else
      let diff := sub (of_int height) (quo (of_int width) m) in
      Some (of_int 0, quo diff (of_int 2), of_int width, quo (of_int width) m).

End Scale.

(* ================================================================== *)
(** ** Pixels, the brightness filter and the image buffer *)

(** A pixel is the tuple of its channel values. *)
Definition pixel : Type := list Z.

(** [limit = lambda x: int(min(x * 1.3, 255))].  The product converts the
    [int] to a float first, which raises [OverflowError] for an [int] too
    large for a finite float.  [min(a, 255)] is [255] when [255 < a] and [a]
    otherwise. *)
Definition limit (x : Z) : option Z :=
  let f := Z2F x in
  if PrimFloat.is_infinity f then None
  else
    let a := PrimFloat.mul f 1.3%float in
    if PrimFloat.ltb 255%float a then Some 255 else int a.

Definition filter (v : pixel) : option pixel := Err.mapM limit v.

(** The image buffer: its size [(width, height)] and the pixel stored at
    each position.  Only the positions of the [width] x [height] grid can be
    read or written. *)
Record Image : Type := {
  size : Z * Z;
  pixel_at : Z -> Z -> pixel
}.

Definition in_image (im : Image) (x y : Z) : bool :=
  (0 <=? x) && (x <? fst (size im)) && (0 <=? y) && (y <? snd (size im)).

(** [pixels[x, y]] for an index on the grid, [0 <= x < width] and
    [0 <= y < height]; no other index is accepted here.  The pixels are
    tuples of channel values (an image of several bands). *)
Definition getpixel (im : Image) (x y : Z) : option pixel :=
  if in_image im x y then Some (pixel_at im x y) else None.

(** [pixels[x, y] = v], for an index on the grid. *)
Definition putpixel (im : Image) (x y : Z) (v : pixel) : option Image :=
  if in_image im x y then
    Some {| size := size im;
            pixel_at := fun x' y' =>
              if (x' =? x) && (y' =? y) then v else pixel_at im x' y' |}
  else None.

(** The pixel access of the imaging library counts a negative index from
    the far edge, as Python's sequences do: [x < 0] stands for
    [width + x], [y < 0] for [height + y].  An index that is off the grid
    after this step raises [IndexError]. *)
Definition wrap_index (length i : Z) : Z :=
  if i <? 0 then length + i else i.

Definition pil_getpixel (im : Image) (x y : Z) : option pixel :=
  getpixel im (wrap_index (fst (size im)) x) (wrap_index (snd (size im)) y).

Definition pil_putpixel (im : Image) (x y : Z) (v : pixel) : option Image :=
  putpixel im (wrap_index (fst (size im)) x) (wrap_index (snd (size im)) y) v.

(** An image of one colour. *)
Definition solid (width height : Z) (v : pixel) : Image :=
  {| size := (width, height); pixel_at := fun _ _ => v |}.

(* ================================================================== *)
(** ** Polygons: bounds and point containment *)

Definition point : Type := (Q * Q)%type.

Definition Qltb (a b : Q) : bool := negb (Qle_bool b a).

(** [Polygon(magic)]: the ring of the exact vertex values.  A ring needs at
    least three finite vertices. *)
Definition Polygon (magic : polygon float) : option (list point) :=
  if (List.length magic <? 3)%nat then None
  else Err.mapM (fun v => x <- F2Q (fst v) ;; y <- F2Q (snd v) ;; Some (x, y)) magic.

(** [.bounds]: [(min_x, min_y, max_x, max_y)] over the vertices. *)
Definition bounds (ring : list point) : option (Q * Q * Q * Q) :=
  match ring with
  | [] => None
  | (x, y) :: rest =>
      Some (fold_left
              (fun b v =>
                 let '(min_x, min_y, max_x, max_y) := b in
                 (if Qltb (fst v) min_x then fst v else min_x,
                  if Qltb (snd v) min_y then snd v else min_y,
                  if Qltb max_x (fst v) then fst v else max_x,
                  if Qltb max_y (snd v) then snd v else max_y))
              rest (x, y, x, y))
  end.

(** The edges of a ring, closed back to its first vertex when the list is
    not. *)
Definition edges (ring : list point) : list (point * point) :=
  match ring with
  | [] => []
  | first :: rest =>
      let closing :=
        if Qeq_bool (fst (last ring first)) (fst first)
           && Qeq_bool (snd (last ring first)) (snd first)
        then [] else [first] in
      combine ring (rest ++ closing)
  end.

(** [p] lies on the segment from [a] to [b]. *)
Definition on_segment (p : point) (e : point * point) : bool :=
  let '(a, b) := e in
  Qeq_bool ((fst b - fst a) * (snd p - snd a)) ((snd b - snd a) * (fst p - fst a))
  && Qle_bool (Qmin (fst a) (fst b)) (fst p) && Qle_bool (fst p) (Qmax (fst a) (fst b))
  && Qle_bool (Qmin (snd a) (snd b)) (snd p) && Qle_bool (snd p) (Qmax (snd a) (snd b)).

(** The edge from [a] to [b] crosses the horizontal ray that leaves [p]
    towards larger [x]. *)
Definition crosses (p : point) (e : point * point) : bool :=
  let '(a, b) := e in
  negb (Bool.eqb (Qltb (snd p) (snd a)) (Qltb (snd p) (snd b)))
  && Qltb (fst p)
          (fst a + (snd p - snd a) * (fst b - fst a) / (snd b - snd a)).

(** [polygon.contains(Point(x, y))]: the point lies in the interior of the
    polygon, its boundary excluded; decided by the crossing number of the
    ray, on the exact values of the co-ordinates. *)
Definition contains (ring : list point) (p : point) : bool :=
  negb (existsb (on_segment p) (edges ring))
  && Nat.odd (List.length (List.filter (crosses p) (edges ring))).

(** The pixel [(x, y)] is visited by the two [range] loops over the bounds
    of the polygon and classified inside it. *)
Definition scanned (magic : polygon float) (xy : Z * Z) : bool :=
  match Polygon magic with
  | None => false
  | Some ring =>
      match bounds ring with
      | None => false
      | Some (min_x, min_y, max_x, max_y) =>
          (Qfloor min_x <=? fst xy) && (fst xy <? Qceiling max_x)
          && (Qfloor min_y <=? snd xy) && (snd xy <? Qceiling max_y)
          && contains ring (inject_Z (fst xy), inject_Z (snd xy))
      end
  end.

(* ================================================================== *)
(** ** [load_image] *)

(** The imaging library's [crop(box)], [box = (left, upper, right, lower)]:
    a box whose right edge lies before its left edge, or its lower edge
    before its upper edge, is refused ([ValueError]); the comparison is on
    the co-ordinates as given.  The co-ordinates are then rounded to
    integers; the result has size [(right - left, lower - upper)] and shows
    the source from [(left, upper)] on. *)
Definition crop (im : Image) (box : float * float * float * float)
  : option Image :=
  let '(x_left, y_upper, x_right, y_lower) := box in
  if PrimFloat.ltb x_right x_left || PrimFloat.ltb y_lower y_upper then None
  else
    x0 <- round x_left ;;
    y0 <- round y_upper ;;
    x1 <- round x_right ;;
    y1 <- round y_lower ;;
    Some {| size := (x1 - x0, y1 - y0);
            pixel_at := fun x y => pixel_at im (x + x0) (y + y0) |}.

(** [load_image], from the decoded file on.  The result of
    [im.convert("RGB")] is dropped by the source, so the cropped image is
    returned as it is. *)
Definition load_image (file : Image) : option Image :=
  let '(width, height) := size file in
  box <- crop_box width height ;;
  crop file box.

(** The window of the decoded file that [load_image] keeps: the integer
    box [(left, upper, right, lower)] that [crop] cuts out. *)
Definition crop_window (width height : Z) : option (Z * Z * Z * Z) :=
  '(x_left, y_upper, x_right, y_lower) <- crop_box width height ;;
  if PrimFloat.ltb x_right x_left || PrimFloat.ltb y_lower y_upper then None
  else
    x0 <- round x_left ;;
    y0 <- round y_upper ;;
    x1 <- round x_right ;;
    y1 <- round y_lower ;;
    Some (x0, y0, x1, y1).

(* ================================================================== *)
(** ** The remap loop of [main] *)

(** The module's mutable tables. *)
Record Globals : Type := {
  g_magics : dict (polygon float);
  g_mirrors : dict string
}.

(** The tables when the process starts. *)
Definition startup : Globals :=
  {| g_magics := magics; g_mirrors := mirrors |}.

(** [x_trans, y_trans] of the region [name]: the first vertex of its mirror
    partner minus its own first vertex, truncated. *)
Definition translation (G : Globals) (name : string) (magic : polygon float)
  : option (Z * Z) :=
  partner <- lookup (g_mirrors G) name ;;
  other <- lookup (g_magics G) partner ;;
  o <- nth_error other 0 ;;
  m <- nth_error magic 0 ;;
  x_trans <- int (PrimFloat.sub (fst o) (fst m)) ;;
  y_trans <- int (PrimFloat.sub (snd o) (snd m)) ;;
  Some (x_trans, y_trans).

Section Pipeline.

  (** [draw_outline(im, magic)] and [add_watermark(im)], as the imaging
      library carries them out. *)
Variable draw_outline : Image -> polygon float -> Image.
Variable add_watermark : Image -> option Image.

  (** Where a source pixel is read: [read pixels] for the buffer [pixels]
      being written.  The program reads the buffer itself. *)
Variable read : Image -> Image.

  (** The body of the [if] of lines 156-160, with the pixel access of the
      grid. *)
Definition move_pixel (G : Globals) (name : string) (magic : polygon float)
             (x y : Z) (pixels : Image) : option Image :=
    '(x_trans, y_trans) <- translation G name magic ;;
    v <- getpixel (read pixels) (x + x_trans) (y + y_trans) ;;
    w <- filter v ;;
    putpixel pixels x y w.

  (** One turn of the loop over [magics.items()], lines 148-169.  The
      progress messages written to the console are left out. *)
Definition region (G : Globals) (item : string * polygon float)
             (pixels : Image) : option Image :=
    let '(name, magic) := item in
    magic_polygon <- Polygon magic ;;
    '(min_x, min_y, max_x, max_y) <- bounds magic_polygon ;;
    pixels <-
      Err.foldM
        (fun x pixels =>
           Err.foldM
             (fun y pixels =>
                if contains magic_polygon (inject_Z x, inject_Z y)
                then move_pixel G name magic x y pixels
                else Some pixels)
             (range (Qfloor min_y) (Qceiling max_y)) pixels)
        (range (Qfloor min_x) (Qceiling max_x)) pixels ;;
    Some (draw_outline pixels magic).

Definition remap_with (G : Globals) (pixels : Image) : option Image :=
    Err.foldM (region G) (g_magics G) pixels.

End Pipeline.

(** The reference procedure: every source pixel is read from the buffer
    that is being written. *)
Definition remap (draw_outline : Image -> polygon float -> Image)
  : Globals -> Image -> option Image :=
  remap_with draw_outline (fun pixels => pixels).


(** [main], from the decoded input file to the image handed to [save],
    together with the tables it leaves behind. *)
Definition main (draw_outline : Image -> polygon float -> Image)
           (add_watermark : Image -> option Image)
           (G : Globals) (file : Image) (eth_scale : float)
  : option (Globals * Image) :=
  im <- load_image file ;;
  let '(width, height) := size im in
  table <- rescale (g_magics G) eth_scale width height ;;
  let G := {| g_magics := table; g_mirrors := g_mirrors G |} in
  im <- remap draw_outline G im ;;
  out <- add_watermark im ;;
  Some (G, out).

(* ================================================================== *)
(** ** The remap loop with the library's pixel access *)

(** The loop of [main] again, line by line, with [pixels[...]] read as the
    library's access [pil_getpixel], [pil_putpixel]: it differs from [remap]
    on the runs that reach a negative index, and only there. *)
Definition pil_move_pixel (G : Globals) (name : string) (magic : polygon float)
           (x y : Z) (pixels : Image) : option Image :=
  '(x_trans, y_trans) <- translation G name magic ;;
  v <- pil_getpixel pixels (x + x_trans) (y + y_trans) ;;
  w <- filter v ;;
  pil_putpixel pixels x y w.

Definition pil_region (draw_outline : Image -> polygon float -> Image)
           (G : Globals) (item : string * polygon float)
           (pixels : Image) : option Image :=
  let '(name, magic) := item in
  magic_polygon <- Polygon magic ;;
  '(min_x, min_y, max_x, max_y) <- bounds magic_polygon ;;
  pixels <-
    Err.foldM
      (fun x pixels =>
         Err.foldM
           (fun y pixels =>
              if contains magic_polygon (inject_Z x, inject_Z y)
              then pil_move_pixel G name magic x y pixels
              else Some pixels)
           (range (Qfloor min_y) (Qceiling max_y)) pixels)
      (range (Qfloor min_x) (Qceiling max_x)) pixels ;;
  Some (draw_outline pixels magic).

Definition pil_remap (draw_outline : Image -> polygon float -> Image)
           (G : Globals) (pixels : Image) : option Image :=
  Err.foldM (pil_region draw_outline G) (g_magics G) pixels.

Definition pil_main (draw_outline : Image -> polygon float -> Image)
           (add_watermark : Image -> option Image)
           (G : Globals) (file : Image) (eth_scale : float)
  : option (Globals * Image) :=
  im <- load_image file ;;
  let '(width, height) := size im in
  table <- rescale (g_magics G) eth_scale width height ;;
  let G := {| g_magics := table; g_mirrors := g_mirrors G |} in
  im <- pil_remap draw_outline G im ;;
  out <- add_watermark im ;;
  Some (G, out).

(* ================================================================== *)
(** ** The operations of a run, in order *)

(** What a run does to the image buffer: it copies a brightened source
    pixel to a target pixel, or outlines a polygon. *)
Inductive op : Type :=
| Copy (target source : Z * Z)
| Outline (magic : polygon float).

Definition region_ops (G : Globals) (item : string * polygon float)
  : option (list op) :=
  let '(name, magic) := item in
  magic_polygon <- Polygon magic ;;
  '(min_x, min_y, max_x, max_y) <- bounds magic_polygon ;;
  copies <-
    Err.mapM
      (fun xy =>
         '(x_trans, y_trans) <- translation G name magic ;;
         Some (Copy xy (fst xy + x_trans, snd xy + y_trans)))
      (List.filter
         (fun xy => contains magic_polygon (inject_Z (fst xy), inject_Z (snd xy)))
         (list_prod (range (Qfloor min_x) (Qceiling max_x))
                    (range (Qfloor min_y) (Qceiling max_y)))) ;;
  Some (copies ++ [Outline magic]).

(** The operations of the loop over the given items, and of the whole loop
    over [magics.items()]. *)
Definition ops_of (G : Globals) (items : dict (polygon float))
  : option (list op) :=
  option_map (@List.concat op) (Err.mapM (region_ops G) items).

Definition ops (G : Globals) : option (list op) := ops_of G (g_magics G).

Definition apply_op (draw_outline : Image -> polygon float -> Image)
           (read : Image -> Image) (o : op) (pixels : Image) : option Image :=
  match o with
  | Copy (x, y) (sx, sy) =>
      v <- getpixel (read pixels) sx sy ;;
      w <- filter v ;;
      putpixel pixels x y w
  | Outline magic => Some (draw_outline pixels magic)
  end.

Definition run (draw_outline : Image -> polygon float -> Image)
           (read : Image -> Image) : list op -> Image -> option Image :=
  Err.foldM (apply_op draw_outline read).

(** The same operations carried out with the library's pixel access, and
    the index each of them reaches on an image of the given size. *)
Definition pil_apply_op (draw_outline : Image -> polygon float -> Image)
           (o : op) (pixels : Image) : option Image :=
  match o with
  | Copy (x, y) (sx, sy) =>
      v <- pil_getpixel pixels sx sy ;;
      w <- filter v ;;
      pil_putpixel pixels x y w
  | Outline magic => Some (draw_outline pixels magic)
  end.

Definition pil_run (draw_outline : Image -> polygon float -> Image)
  : list op -> Image -> option Image :=
  Err.foldM (pil_apply_op draw_outline).

Definition wrap (size : Z * Z) (xy : Z * Z) : Z * Z :=
  (wrap_index (fst size) (fst xy), wrap_index (snd size) (snd xy)).

Definition wrap_op (size : Z * Z) (o : op) : op :=
  match o with
  | Copy t s => Copy (wrap size t) (wrap size s)
  | Outline magic => Outline magic
  end.

(** The targets of the copies of a list of operations. *)
Fixpoint targets (l : list op) : list (Z * Z) :=
  match l with
  | [] => []
  | Copy t _ :: rest => t :: targets rest
  | Outline _ :: rest => targets rest
  end.


(* ================================================================== *)
(** ** The command line *)

(** What the entry point does, in order.  [Raise] is an exception that
    nothing catches: it ends the process with a traceback. *)
Inductive event : Type :=
| Print (line : string)
| IsFile (path : string)
| Exit (code : Z)
| Raise (exception : string)
| Main (input_filename output_filename : string) (eth_scale : option float).

(** The [if __name__ == "__main__"] block, for the argument vector [argv]
    ([argv[0]] is the program), the answer [isfile] of the file system and
    the conversion [to_float] of a string by [float(...)], which is [None]
    where [float] raises [ValueError].  The third argument is converted
    before [main] is called; without it [main] runs with its default. *)
Definition entry (isfile : string -> bool) (to_float : string -> option float)
           (argv : list string) : list event :=
  if (List.length argv <? 3)%nat then
    [ Print "error: missing arguments";
      Print "usage: ./main.py INPUT_IMAGE OUTPUT_IMAGE [ETH_SCALE]";
      Exit 0 ]
  else
    let input := nth 1 argv ""%string in
    let output := nth 2 argv ""%string in
    if negb (isfile input) then
      [ IsFile input; Print "error: cannot open input file"; Exit 0 ]
    else if (List.length argv =? 3)%nat then
      [ IsFile input; Main input output None ]
    else
      match to_float (nth 3 argv ""%string) with
      | Some eth_scale => [ IsFile input; Main input output (Some eth_scale) ]
      | None => [ IsFile input; Raise "ValueError" ]
      end.

(** An event that opens, decodes or processes an image. *)
Definition processes (e : event) : bool :=
  match e with
  | Main _ _ _ => true
  | _ => false
  end.

(** The painter that draws nothing. *)
Definition no_outline (im : Image) (magic : polygon float) : Image := im.

(* ================================================================== *)
(** ** Vocabulary of the statements *)

(** The drawing primitive leaves the pixel [(x, y)] as it is. *)
Definition keeps (draw_outline : Image -> polygon float -> Image)
           (xy : Z * Z) : Prop :=
  forall im magic,
    pixel_at (draw_outline im magic) (fst xy) (snd xy)
    = pixel_at im (fst xy) (snd xy).

Definition keeps_size (draw_outline : Image -> polygon float -> Image) : Prop :=
  forall im magic, size (draw_outline im magic) = size im.

(** Channel values are bytes. *)
Definition valid_pixel (v : pixel) : Prop := Forall (fun c => 0 <= c <= 255) v.

Definition valid_image (im : Image) : Prop :=
  forall x y, valid_pixel (pixel_at im x y).

Definition keeps_valid (draw_outline : Image -> polygon float -> Image) : Prop :=
  forall im magic, valid_image im -> valid_image (draw_outline im magic).

(** The sources of the copies of a list of operations. *)
Fixpoint sources (l : list op) : list (Z * Z) :=
  match l with
  | [] => []
  | Copy _ s :: rest => s :: sources rest
  | Outline _ :: rest => sources rest
  end.

(** The channel value the filter computes, in integer arithmetic: the
    product by 1.3 is truncated, not rounded. *)
Definition brighten (c : Z) : Z := Z.min (c * 13 / 10) 255.

(** Every pixel the region can visit, and its source, lie on a grid of the
    given size: a check on the bounds of the polygon alone. *)
Definition region_fits (G : Globals) (width height : Z)
           (item : string * polygon float) : bool :=
  match Polygon (snd item) with
  | None => false
  | Some ring =>
      match bounds ring, translation G (fst item) (snd item) with
      | Some (min_x, min_y, max_x, max_y), Some (x_trans, y_trans) =>
          (0 <=? Qfloor min_x) && (Qceiling max_x <=? width)
          && (0 <=? Qfloor min_y) && (Qceiling max_y <=? height)
          && (0 <=? Qfloor min_x + x_trans) && (Qceiling max_x + x_trans <=? width)
          && (0 <=? Qfloor min_y + y_trans) && (Qceiling max_y + y_trans <=? height)
      | _, _ => false
      end
  end.

(** The same check for the library's pixel access, which also takes the
    indices from [- width] and [- height] on. *)
Definition region_fits_wrapped (G : Globals) (width height : Z)
           (item : string * polygon float) : bool :=
  match Polygon (snd item) with
  | None => false
  | Some ring =>
      match bounds ring, translation G (fst item) (snd item) with
      | Some (min_x, min_y, max_x, max_y), Some (x_trans, y_trans) =>
          (- width <=? Qfloor min_x) && (Qceiling max_x <=? width)
          && (- height <=? Qfloor min_y) && (Qceiling max_y <=? height)
          && (- width <=? Qfloor min_x + x_trans)
          && (Qceiling max_x + x_trans <=? width)
          && (- height <=? Qfloor min_y + y_trans)
          && (Qceiling max_y + y_trans <=? height)
      | _, _ => false
      end
  end.

(** The index is one the library's access accepts on a grid of the given
    size. *)
Definition reachable (size : Z * Z) (xy : Z * Z) : Prop :=
  - fst size <= fst xy < fst size /\ - snd size <= snd xy < snd size.

(** The tables [main] works with on a 1920 x 1266 image at scale 1. *)
Definition table_1920 : dict (polygon float) :=
  Eval vm_compute in
    match rescale (g_magics startup) 1%float 1920 1266 with
    | Some t => t
    | None => []
    end.

Definition G_1920 : Globals :=
  {| g_magics := table_1920; g_mirrors := mirrors |}.

(** The tables on a 48 x 32 image at scale 1, and on a 32 x 21 image at
    scale 2. *)
Definition G_48 : Globals :=
  Eval vm_compute in
    {| g_magics := match rescale (g_magics startup) 1%float 48 32 with
                   | Some t => t
                   | None => []
                   end;
       g_mirrors := mirrors |}.

Definition G_32 : Globals :=
  Eval vm_compute in
    {| g_magics := match rescale (g_magics startup) 2%float 32 21 with
                   | Some t => t
                   | None => []
                   end;
       g_mirrors := mirrors |}.

(** The tables on a 200 x 132 image at scale -1.575. *)
Definition G_200 : Globals :=
  Eval vm_compute in
    {| g_magics := match rescale (g_magics startup) (-1.575)%float 200 132 with
                   | Some t => t
                   | None => []
                   end;
       g_mirrors := mirrors |}.

(** The polygon a table holds under a name. *)
Definition polygon_of (G : Globals) (name : string) : polygon float :=
  match lookup (g_magics G) name with
  | Some magic => magic
  | None => []
  end.

Definition gray : pixel := [128; 128; 128].

(** The watermark step that always succeeds and draws nothing. *)
Definition no_watermark (im : Image) : option Image := Some im.

(** An image whose pixels record their own position. *)
Definition chart (width height : Z) : Image :=
  {| size := (width, height); pixel_at := fun x y => [x; y] |}.

(* ================================================================== *)
(** ** Sample vertices *)

(** The decimal literals 0.00, 0.01, ..., 1.00 (the float nearest to
    [i / 100]) and the grid of vertices they span in the unit square; the
    vertex with the indices (50, 50) is the centre (0.5, 0.5). *)
Definition hundredth (i : Z) : float := PrimFloat.div (Z2F i) (Z2F 100).

Definition grid_vertex (ij : Z * Z) : float * float :=
  (hundredth (fst ij), hundredth (snd ij)).

Definition grid_indices : list (Z * Z) :=
  list_prod (range 0 101) (range 0 101).


Definition off_centre_grid : polygon float :=
  map grid_vertex
      (List.filter (fun ij => negb ((fst ij =? 50) && (snd ij =? 50)))
                   grid_indices).

(** The vertices of the four templates. *)
Definition template_vertices : polygon float :=
  List.concat (map snd (@magics float _)).

(** Two floats are finite and differ by at most [2^-50]. *)
Definition near (a b : float) : bool :=
  match F2Q a, F2Q b with
  | Some p, Some q => Qle_bool (Qabs (p - q)) (1 # 2 ^ 50)
  | _, _ => false
  end.

(** The distance of a vertex from the centre, as [scale] computes it. *)
Definition centre_distance {A : Type} `{Number A} (v : A * A) : A :=
  root (add (sqr (sub (snd v) half)) (sqr (sub (fst v) half))).

(* ================================================================== *)
(** ** [draw_outline], over the line primitive *)

(** A segment [(x0, y0, x1, y1)], as handed to [drw.line]. *)
Definition segment : Type := (float * float * float * float)%type.

Definition fill_color : pixel := [180; 180; 180; 255].

(** The segments [draw_outline] draws, in order: for [i] in
    [range(len(magic))], from vertex [i] to vertex [(i + 1) % len(magic)]. *)
Definition outline_segments (magic : polygon float) : list segment :=
  map (fun i =>
         let j := ((i + 1) mod List.length magic)%nat in
         let a := nth i magic (0, 0)%float in
         let b := nth j magic (0, 0)%float in
         (fst a, snd a, fst b, snd b))
      (seq 0 (List.length magic)).

(** [draw_outline(im, magic)], for the line primitive [line] of the imaging
    library ([drw.line(segment, fill=fill_color)]). *)
Definition draw_outline_with (line : Image -> segment -> pixel -> Image)
           (im : Image) (magic : polygon float) : Image :=
  fold_left (fun im seg => line im seg fill_color) (outline_segments magic) im.

(** The two end points of a segment. *)
Definition seg_start (s : segment) : float * float :=
  (fst (fst (fst s)), snd (fst (fst s))).

Definition seg_end (s : segment) : float * float := (snd (fst s), snd s).

(* ================================================================== *)
(** ** [add_watermark]: the font size *)

(** [size = int(watermark.size[0] / WATERMARK_RATIO)], the point size handed
    to [ImageFont.truetype], for an image of the given width. *)
Definition watermark_font_size (width : Z) : option Z :=
  int (PrimFloat.div (Z2F width) (Z2F WATERMARK_RATIO)).

(* ================================================================== *)
(** ** The progress messages of [main] *)

(** [int(todo * mul / 10 * 4)]: the column count at which the next message
    is due. *)
Definition milestone (todo mul : Z) : option Z :=
  int (PrimFloat.mul (PrimFloat.div (Z2F (todo * mul)) (Z2F 10)) (Z2F 4)).

(** The end of one turn of the loop over [x], lines 162-167: the state is
    [(done, mul)] and the percentages written so far. *)
Definition progress_step (todo : Z) (st : Z * Z * list Z)
  : option (Z * Z * list Z) :=
  let '(done, mul, written) := st in
  let done := done + 1 in
  due <- milestone todo mul ;;
  if done =? due then Some (done, mul + 1, written ++ [mul * 10])
  else Some (done, mul, written).

(** The messages of one region: [todo] is the width of its bounds and the
    loop over [x] has one turn per column. *)
Definition progress_region (magic : polygon float) (st : Z * Z * list Z)
  : option (Z * Z * list Z) :=
  magic_polygon <- Polygon magic ;;
  '(min_x, min_y, max_x, max_y) <- bounds magic_polygon ;;
  let todo := Qceiling max_x - Qfloor min_x in
  Err.foldM (fun _ st => progress_step todo st)
            (range (Qfloor min_x) (Qceiling max_x)) st.

(** The percentages a complete run writes to the console: [done, mul = 0, 1]
    once, before the loop over the regions. *)
Definition progress (table : dict (polygon float)) : option (list Z) :=
  option_map snd (Err.foldM progress_region (map snd table) (0, 1, [])).

(* ================================================================== *)
(** * Lemmas *)

(** ** Failure monad and loops *)

Lemma bind_Some {A B : Type} (m : option A) (k : A -> option B) (b : B) :
  Err.bind m k = Some b -> exists a, m = Some a /\ k a = Some b.
Proof. destruct m as [a|]; simpl; intros E; [eauto | discriminate]. Qed.

Lemma bind_None_r {A B : Type} (m : option A) :
  Err.bind m (fun _ => @None B) = None.
Proof. now destruct m. Qed.

Lemma foldM_app {A S : Type} (f : A -> S -> option S) (l1 l2 : list A) (s : S) :
  Err.foldM f (l1 ++ l2) s = Err.bind (Err.foldM f l1 s) (Err.foldM f l2).
Proof.
  revert s; induction l1 as [|a l1 IH]; intros s; simpl; [reflexivity|].
  destruct (f a s) as [s1|]; simpl; [apply IH | reflexivity].
Qed.

Lemma foldM_ext {A S : Type} (f g : A -> S -> option S) (l : list A) (s : S) :
  (forall a t, f a t = g a t) -> Err.foldM f l s = Err.foldM g l s.
Proof.
  intros E; revert s; induction l as [|a l IH]; intros s; simpl; [reflexivity|].
  rewrite E. destruct (g a s); simpl; auto.
Qed.

(** Two nested loops are one loop over the pairs. *)
Lemma foldM_prod {A B S : Type} (f : A -> B -> S -> option S)
      (xs : list A) (ys : list B) (s : S) :
  Err.foldM (fun x => Err.foldM (f x) ys) xs s
  = Err.foldM (fun xy => f (fst xy) (snd xy)) (list_prod xs ys) s.
Proof.
  revert s; induction xs as [|x xs IH]; intros s; simpl; [reflexivity|].
  rewrite foldM_app.
  assert (E : forall t, Err.foldM (f x) ys t
                = Err.foldM (fun xy => f (fst xy) (snd xy)) (map (fun y => (x, y)) ys) t).
  { clear. induction ys as [|y ys IH]; intros t; simpl; [reflexivity|].
    destruct (f x y t); simpl; auto. }
  rewrite E.
  destruct (Err.foldM _ (map _ ys) s); simpl; auto.
Qed.

(** A loop whose body is guarded by a test is the loop over the items that
    pass the test. *)
Lemma foldM_filter {A S : Type} (c : A -> bool) (f : A -> S -> option S)
      (l : list A) (s : S) :
  Err.foldM (fun a t => if c a then f a t else Some t) l s
  = Err.foldM f (List.filter c l) s.
Proof.
  revert s; induction l as [|a l IH]; intros s; simpl; [reflexivity|].
  destruct (c a); simpl; [|apply IH].
  destruct (f a s); simpl; auto.
Qed.

(** A loop that first decides what to do and then does it is the list of
    decisions followed by the list of actions. *)
Lemma foldM_mapM {A O S : Type} (mk : A -> option O) (act : O -> S -> option S)
      (l : list A) (s : S) :
  Err.foldM (fun a t => o <- mk a ;; act o t) l s
  = (os <- Err.mapM mk l ;; Err.foldM act os s).
Proof.
  revert s; induction l as [|a l IH]; intros s; simpl; [reflexivity|].
  destruct (mk a) as [o|]; simpl; [|reflexivity].
  destruct (Err.mapM mk l) as [os|] eqn:E; simpl.
  - destruct (act o s) as [s1|]; simpl; [|reflexivity].
    rewrite IH. reflexivity.
  - destruct (act o s) as [s1|]; simpl; [|reflexivity].
    rewrite IH. reflexivity.
Qed.

Lemma foldM_concat {A O S : Type} (mk : A -> option (list O))
      (act : O -> S -> option S) (l : list A) (s : S) :
  Err.foldM (fun a t => os <- mk a ;; Err.foldM act os t) l s
  = (oss <- Err.mapM mk l ;; Err.foldM act (List.concat oss) s).
Proof.
  rewrite foldM_mapM.
  destruct (Err.mapM mk l) as [oss|]; simpl; [|reflexivity].
  clear. revert s; induction oss as [|os oss IH]; intros s; simpl; [reflexivity|].
  rewrite foldM_app. destruct (Err.foldM act os s); simpl; auto.
Qed.

Lemma mapM_Some {A B : Type} (f : A -> option B) (l : list A) (l' : list B) :
  Err.mapM f l = Some l' -> Forall2 (fun a b => f a = Some b) l l'.
Proof.
  revert l'; induction l as [|a l IH]; intros l'; simpl.
  - intros E; inversion E; constructor.
  - destruct (f a) as [b|] eqn:Ea; simpl; [|discriminate].
    destruct (Err.mapM f l) as [bs|]; simpl; [|discriminate].
    intros E; inversion E; subst. constructor; auto.
Qed.

Lemma mapM_map {A B : Type} (f : A -> option B) (g : A -> B) (l : list A) :
  (forall a, In a l -> f a = Some (g a)) -> Err.mapM f l = Some (map g l).
Proof.
  induction l as [|a l IH]; intros E; simpl; [reflexivity|].
  rewrite E by (left; reflexivity). simpl.
  rewrite IH by (intros; apply E; right; assumption). reflexivity.
Qed.

Lemma mapM_app {A B : Type} (f : A -> option B) (l1 l2 : list A) (r : list B) :
  Err.mapM f (l1 ++ l2) = Some r ->
  exists r1 r2, Err.mapM f l1 = Some r1 /\ Err.mapM f l2 = Some r2 /\ r = r1 ++ r2.
Proof.
  revert r; induction l1 as [|a l1 IH]; intros r; simpl.
  - intros E. exists [], r. auto.
  - destruct (f a) as [b|]; simpl; [|discriminate].
    destruct (Err.mapM f (l1 ++ l2)) as [bs|] eqn:E; simpl; [|discriminate].
    intros E'; inversion E'; subst.
    destruct (IH bs eq_refl) as (r1 & r2 & E1 & E2 & ->).
    rewrite E1. simpl. exists (b :: r1), r2. auto.
Qed.

(** ** [range] *)

Lemma In_range (a b z : Z) : In z (range a b) <-> a <= z < b.
Proof.
  unfold range. rewrite in_map_iff. split.
  - intros (i & <- & Hi). apply in_seq in Hi. lia.
  - intros H. exists (Z.to_nat (z - a)). split; [lia|].
    apply in_seq. lia.
Qed.

Lemma NoDup_range (a b : Z) : NoDup (range a b).
Proof.
  unfold range. apply Injective_map_NoDup; [|apply seq_NoDup].
  intros i j E. lia.
Qed.

Lemma NoDup_list_prod {A B : Type} (xs : list A) (ys : list B) :
  NoDup xs -> NoDup ys -> NoDup (list_prod xs ys).
Proof.
  intros Hx Hy. induction Hx as [|x xs Hin Hx IH]; simpl; [constructor|].
  apply NoDup_app; swap 1 2; [exact IH| |].
  - apply Injective_map_NoDup; [|exact Hy].
    intros y1 y2 E; now inversion E.
  - intros [x' y'] H1 H2. apply in_map_iff in H1. destruct H1 as (y & E & _).
    inversion E; subst. apply in_prod_iff in H2. tauto.
Qed.

(** ** The loops of [main] as a list of operations *)

Section Fusion.
Variable draw_outline : Image -> polygon float -> Image.
Variable read : Image -> Image.

Lemma run_app (l1 l2 : list op) (im : Image) :
    run draw_outline read (l1 ++ l2) im
    = Err.bind (run draw_outline read l1 im) (run draw_outline read l2).
Proof. apply foldM_app. Qed.

Lemma region_fused (G : Globals) (item : string * polygon float) (im : Image) :
    region draw_outline read G item im
    = (l <- region_ops G item ;; run draw_outline read l im).
Proof.
    destruct item as [name magic]. unfold region, region_ops.
    destruct (Polygon magic) as [ring|]; simpl; [|reflexivity].
    destruct (bounds ring) as [[[[min_x min_y] max_x] max_y]|]; simpl; [|reflexivity].
    rewrite foldM_prod.
    rewrite (foldM_filter
               (fun xy => contains ring (inject_Z (fst xy), inject_Z (snd xy)))
               (fun xy => move_pixel read G name magic (fst xy) (snd xy))).
    rewrite (foldM_ext _
               (fun xy t =>
                  o <- (fun xy : Z * Z =>
                          '(x_trans, y_trans) <- translation G name magic ;;
                          Some (Copy xy (fst xy + x_trans, snd xy + y_trans))) xy ;;
                  apply_op draw_outline read o t)).
    - rewrite foldM_mapM.
      destruct (Err.mapM _ _) as [copies|]; simpl; [|reflexivity].
      unfold run. rewrite foldM_app. simpl.
      destruct (Err.foldM _ copies im); reflexivity.
    - intros [x y] t. unfold move_pixel. simpl.
      destruct (translation G name magic) as [[xt yt]|]; reflexivity.
Qed.

Lemma remap_fused (G : Globals) (items : dict (polygon float)) (im : Image) :
    Err.foldM (region draw_outline read G) items im
    = (l <- ops_of G items ;; run draw_outline read l im).
Proof.
    rewrite (foldM_ext _ (fun item t => os <- region_ops G item ;;
                                     Err.foldM (apply_op draw_outline read) os t)).
    - rewrite foldM_concat. unfold ops_of.
      destruct (Err.mapM (region_ops G) items); reflexivity.
    - intros item t. apply region_fused.
Qed.

End Fusion.

Lemma targets_app (l1 l2 : list op) : targets (l1 ++ l2) = targets l1 ++ targets l2.
Proof.
  induction l1 as [|[t s|m] l1 IH]; simpl; [reflexivity| |assumption].
  now rewrite IH.
Qed.

Lemma In_targets (l : list op) (t : Z * Z) :
  In t (targets l) <-> exists s, In (Copy t s) l.
Proof.
  induction l as [|[t' s'|m] l IH]; simpl.
  - split; [tauto | intros (s & [])].
  - rewrite IH. split.
    + intros [<- | (s & H)]; eauto.
    + intros (s & [E | H]); [inversion E; auto | eauto].
  - rewrite IH. split; intros (s & H); exists s; [auto | destruct H as [E|H]; [discriminate | exact H]].
Qed.

Lemma In_sources (l : list op) (t s : Z * Z) : In (Copy t s) l -> In s (sources l).
Proof.
  induction l as [|[t' s'|m] l IH]; simpl; [tauto | |].
  - intros [E | H]; [inversion E; auto | auto].
  - intros [E | H]; [discriminate | auto].
Qed.

(** What [scanned] means. *)
Lemma scanned_spec (magic : polygon float) (ring : list point)
      (min_x min_y max_x max_y : Q) (xy : Z * Z) :
  Polygon magic = Some ring -> bounds ring = Some (min_x, min_y, max_x, max_y) ->
  scanned magic xy = true <->
  In xy (List.filter
           (fun xy => contains ring (inject_Z (fst xy), inject_Z (snd xy)))
           (list_prod (range (Qfloor min_x) (Qceiling max_x))
                      (range (Qfloor min_y) (Qceiling max_y)))).
Proof.
  intros EP EB. unfold scanned. rewrite EP, EB.
  rewrite filter_In. destruct xy as [x y]. rewrite in_prod_iff, !In_range. simpl.
  rewrite !andb_true_iff, !Z.leb_le, !Z.ltb_lt. tauto.
Qed.

(** The operations of one region: a copy into every scanned pixel, each
    once, from the translated pixel; then the outline. *)
Lemma region_ops_spec (G : Globals) (name : string) (magic : polygon float)
      (l : list op) :
  region_ops G (name, magic) = Some l ->
  exists copies,
    l = copies ++ [Outline magic]
    /\ NoDup (targets copies)
    /\ (forall t, In t (targets copies) <-> scanned magic t = true)
    /\ (forall t s, In (Copy t s) copies ->
          exists d, translation G name magic = Some d
                    /\ s = (fst t + fst d, snd t + snd d)).
Proof.
  unfold region_ops.
  destruct (Polygon magic) as [ring|] eqn:EP; simpl; [|discriminate].
  destruct (bounds ring) as [[[[min_x min_y] max_x] max_y]|] eqn:EB; simpl; [|discriminate].
  intros E. apply bind_Some in E. destruct E as (copies & EM & E).
  inversion E; subst l; clear E. exists copies. split; [reflexivity|].
  pose proof (fun xy => scanned_spec magic ring min_x min_y max_x max_y xy EP EB) as Hs.
  set (pts := List.filter _ _) in *.
  assert (Hnd : NoDup pts).
  { apply NoDup_filter, NoDup_list_prod; apply NoDup_range. }
  apply mapM_Some in EM.
  assert (Ht : targets copies = pts
               /\ forall t s, In (Copy t s) copies ->
                    exists d, translation G name magic = Some d
                              /\ s = (fst t + fst d, snd t + snd d)).
  { clear Hs Hnd. induction EM as [|xy o pts' copies' E1 _ IH]; simpl.
    - split; [reflexivity | intros ? ? []].
    - destruct (translation G name magic) as [[xt yt]|] eqn:ET; simpl in E1; [|discriminate].
      inversion E1; subst o. simpl. destruct IH as [IH1 IH2]. split.
      + now rewrite IH1.
      + intros t s [E | H]; [|auto].
        inversion E; subst. exists (xt, yt). auto. }
  destruct Ht as [Ht Hc]. rewrite Ht. repeat split; auto.
  - intros H. apply Hs. exact H.
  - intros H. apply Hs in H. exact H.
Qed.

Lemma region_ops_Copy (G : Globals) (name : string) (magic : polygon float)
      (l : list op) (t d : Z * Z) :
  region_ops G (name, magic) = Some l ->
  scanned magic t = true -> translation G name magic = Some d ->
  exists c1 c2,
    l = c1 ++ Copy t (fst t + fst d, snd t + snd d) :: c2
    /\ ~ In t (targets c1) /\ ~ In t (targets c2)
    /\ (forall u, In u (targets c1) -> scanned magic u = true)
    /\ (forall u, In u (targets c2) -> scanned magic u = true).
Proof.
  intros E Hs ET.
  destruct (region_ops_spec _ _ _ _ E) as (copies & -> & Hnd & Hin & Hc).
  assert (H : In t (targets copies)) by (apply Hin; exact Hs).
  apply In_targets in H. destruct H as (s & H).
  destruct (Hc _ _ H) as (d' & ET' & ->).
  rewrite ET in ET'. inversion ET'; subst d'.
  apply in_split in H. destruct H as (c1 & c2 & ->).
  rewrite targets_app in Hnd, Hin. simpl in Hnd, Hin.
  exists c1, (c2 ++ [Outline magic]).
  rewrite <- app_assoc. simpl. split; [reflexivity|].
  apply NoDup_remove_2 in Hnd.
  rewrite targets_app, app_nil_r. simpl.
  repeat split.
  - intros H; apply Hnd, in_or_app; auto.
  - intros H; apply Hnd, in_or_app; auto.
  - intros u Hu. apply Hin, in_or_app; auto.
  - intros u Hu. apply Hin, in_or_app; right; right; exact Hu.
Qed.

(** Targets of the operations of a list of regions. *)
Lemma ops_of_targets (G : Globals) (items : dict (polygon float)) (l : list op)
      (t : Z * Z) :
  ops_of G items = Some l -> In t (targets l) ->
  exists item, In item items /\ scanned (snd item) t = true.
Proof.
  unfold ops_of. destruct (Err.mapM (region_ops G) items) as [ls|] eqn:E; simpl; [|discriminate].
  intros E'; inversion E'; subst l; clear E'.
  apply mapM_Some in E. induction E as [|item l1 items' ls' E1 _ IH]; simpl; [tauto|].
  rewrite targets_app, in_app_iff. intros [H | H].
  - exists item. split; [auto|]. destruct item as [name magic].
    destruct (region_ops_spec _ _ _ _ E1) as (copies & -> & _ & Hin & _).
    rewrite targets_app in H. simpl in H. rewrite app_nil_r in H. apply Hin. exact H.
  - destruct (IH H) as (item' & Hi & Hs). eauto.
Qed.

Lemma ops_of_app (G : Globals) (before after : dict (polygon float)) (l : list op) :
  ops_of G (before ++ after) = Some l ->
  exists lb la, ops_of G before = Some lb /\ ops_of G after = Some la /\ l = lb ++ la.
Proof.
  unfold ops_of.
  destruct (Err.mapM (region_ops G) (before ++ after)) as [ls|] eqn:E; simpl; [|discriminate].
  intros E'; inversion E'; subst l; clear E'.
  destruct (mapM_app _ _ _ _ E) as (r1 & r2 & E1 & E2 & ->).
  rewrite E1, E2. simpl. exists (List.concat r1), (List.concat r2).
  rewrite concat_app. auto.
Qed.

Lemma ops_of_cons (G : Globals) (item : string * polygon float)
      (items : dict (polygon float)) (l : list op) :
  ops_of G (item :: items) = Some l ->
  exists l1 l2, region_ops G item = Some l1 /\ ops_of G items = Some l2 /\ l = l1 ++ l2.
Proof.
  unfold ops_of. simpl.
  destruct (region_ops G item) as [l1|]; simpl; [|discriminate].
  destruct (Err.mapM (region_ops G) items) as [ls|]; simpl; [|discriminate].
  intros E; inversion E; subst. eauto.
Qed.

(** ** The filter on byte channels *)

Lemma limit_table :
  forallb (fun c => match limit c with
                    | Some r => r =? brighten c
                    | None => false
                    end) (range 0 256) = true.
Proof. vm_compute. reflexivity. Qed.

Lemma limit_byte (c : Z) : 0 <= c <= 255 -> limit c = Some (brighten c).
Proof.
  intros H. pose proof limit_table as T. rewrite forallb_forall in T.
  specialize (T c). rewrite In_range in T. specialize (T ltac:(lia)).
  destruct (limit c) as [r|]; [|discriminate].
  apply Z.eqb_eq in T. now subst.
Qed.

Lemma brighten_byte (c : Z) : 0 <= c <= 255 -> 0 <= brighten c <= 255.
Proof.
  intros H. unfold brighten. split; [|apply Z.le_min_r].
  apply Z.min_glb; [|lia]. apply Z.div_pos; lia.
Qed.

Lemma filter_valid (v : pixel) :
  valid_pixel v -> filter v = Some (map brighten v) /\ valid_pixel (map brighten v).
Proof.
  unfold valid_pixel, filter. induction 1 as [|c v Hc Hv [IH1 IH2]]; simpl.
  - split; [reflexivity | constructor].
  - rewrite (limit_byte c Hc). simpl. rewrite IH1. simpl. split; [reflexivity|].
    constructor; [apply brighten_byte; exact Hc | exact IH2].
Qed.

(** ** Reading and writing the buffer *)

Lemma getpixel_Some (im : Image) (x y : Z) (v : pixel) :
  getpixel im x y = Some v -> in_image im x y = true /\ v = pixel_at im x y.
Proof.
  unfold getpixel. destruct (in_image im x y); [|discriminate].
  intros E; inversion E; auto.
Qed.

Lemma putpixel_Some (im im' : Image) (x y : Z) (w : pixel) :
  putpixel im x y w = Some im' ->
  in_image im x y = true /\ size im' = size im
  /\ pixel_at im' x y = w
  /\ forall x' y', (x', y') <> (x, y) -> pixel_at im' x' y' = pixel_at im x' y'.
Proof.
  unfold putpixel. destruct (in_image im x y); [|discriminate].
  intros E; inversion E; subst; clear E. simpl. repeat split.
  - now rewrite !Z.eqb_refl.
  - intros x' y' N. destruct (x' =? x) eqn:Ex; simpl; [|reflexivity].
    destruct (y' =? y) eqn:Ey; [|reflexivity].
    apply Z.eqb_eq in Ex, Ey. subst. congruence.
Qed.

Lemma in_image_size (a b : Image) (x y : Z) :
  size a = size b -> in_image a x y = in_image b x y.
Proof. unfold in_image. now intros ->. Qed.

(** Images are equal when their sizes and all their pixels are. *)
Lemma image_ext (a b : Image) :
  size a = size b -> (forall x y, pixel_at a x y = pixel_at b x y) -> a = b.
Proof.
  destruct a as [sa pa], b as [sb pb]. simpl. intros -> E. f_equal.
  apply FunctionalExtensionality.functional_extensionality; intros x.
  apply FunctionalExtensionality.functional_extensionality; intros y. apply E.
Qed.

(** ** What a run does to one pixel *)

Section Run.
Variable draw_outline : Image -> polygon float -> Image.
Variable read : Image -> Image.
Hypothesis draw_size : keeps_size draw_outline.

Lemma apply_op_size (o : op) (im im' : Image) :
    apply_op draw_outline read o im = Some im' -> size im' = size im.
Proof.
    destruct o as [[x y] [sx sy]|magic]; simpl.
    - intros E. apply bind_Some in E. destruct E as (v & _ & E).
      apply bind_Some in E. destruct E as (w & _ & E).
      apply putpixel_Some in E. tauto.
    - intros E; inversion E. apply draw_size.
Qed.


  (** A pixel that no copy targets and no outline touches keeps its value. *)
Lemma run_untouched (l : list op) (im im' : Image) (q : Z * Z) :
    run draw_outline read l im = Some im' ->
    ~ In q (targets l) -> keeps draw_outline q ->
    pixel_at im' (fst q) (snd q) = pixel_at im (fst q) (snd q).
Proof.
    intros E N K. revert im E; induction l as [|o l IH]; intros im; simpl.
    - intros E; now inversion E.
    - intros E. apply bind_Some in E. destruct E as (im1 & E1 & E).
      destruct o as [[x y] [sx sy]|magic]; simpl in *.
      + rewrite (IH ltac:(tauto) _ E).
        apply bind_Some in E1. destruct E1 as (v & _ & E1).
        apply bind_Some in E1. destruct E1 as (w & _ & E1).
        apply putpixel_Some in E1. destruct E1 as (_ & _ & _ & E1).
        apply E1. destruct q as [qx qy]. simpl. intros C. apply N. left.
        symmetry. exact C.
      + rewrite (IH N _ E). inversion E1; subst. apply K.
Qed.

  (** The value a pixel ends with is the filtered value its last copy read. *)
Lemma run_last_copy (l1 l2 : list op) (im im' : Image) (q s : Z * Z) :
    run draw_outline read (l1 ++ Copy q s :: l2) im = Some im' ->
    ~ In q (targets l2) -> keeps draw_outline q ->
    exists im1,
      run draw_outline read l1 im = Some im1
      /\ filter (pixel_at (read im1) (fst s) (snd s))
         = Some (pixel_at im' (fst q) (snd q)).
Proof.
    intros E N K. rewrite run_app in E. apply bind_Some in E.
    destruct E as (im1 & E1 & E). exists im1. split; [exact E1|].
    change (run draw_outline read (Copy q s :: l2) im1)
      with (Err.bind (apply_op draw_outline read (Copy q s) im1)
                     (run draw_outline read l2)) in E.
    apply bind_Some in E. destruct E as (im2 & E2 & E).
    rewrite (run_untouched l2 im2 im' q E N K).
    destruct q as [x y], s as [sx sy]. simpl in *.
    apply bind_Some in E2. destruct E2 as (v & Ev & E2).
    apply bind_Some in E2. destruct E2 as (w & Ew & E2).
    apply getpixel_Some in Ev. destruct Ev as [_ ->].
    apply putpixel_Some in E2. destruct E2 as (_ & _ & -> & _). exact Ew.
Qed.

  (** Every copy of a run that succeeds reads and writes inside the grid. *)
Lemma run_in_image (l : list op) (im im' : Image) (t s : Z * Z) :
    (forall p, size p = size im -> size (read p) = size im) ->
    run draw_outline read l im = Some im' -> In (Copy t s) l ->
    in_image im (fst s) (snd s) = true /\ in_image im (fst t) (snd t) = true.
Proof.
    intros R E H.
    assert (G : forall p, size p = size im ->
                run draw_outline read l p = Some im' ->
                in_image im (fst s) (snd s) = true /\ in_image im (fst t) (snd t) = true).
    { clear E. induction l as [|o l IH]; [destruct H|].
      intros p Sp E. simpl in E. apply bind_Some in E. destruct E as (p1 & E1 & E).
      destruct H as [-> | H].
      - destruct t as [x y], s as [sx sy]. simpl in *.
        apply bind_Some in E1. destruct E1 as (v & Ev & E1).
        apply bind_Some in E1. destruct E1 as (w & _ & E1).
        apply getpixel_Some in Ev. apply putpixel_Some in E1.
        rewrite (in_image_size _ im) in Ev by (apply R; exact Sp).
        rewrite (in_image_size _ im) in E1 by exact Sp. tauto.
      - apply (IH H p1); [|exact E].
        rewrite (apply_op_size _ _ _ E1). exact Sp. }
    apply (G im eq_refl E).
Qed.

  (** A run whose copies all stay inside the grid succeeds on an image of
      byte channels. *)
Lemma run_succeeds (l : list op) (im : Image) :
    keeps_valid draw_outline ->
    (forall p, size p = size im -> valid_image p ->
               size (read p) = size im /\ valid_image (read p)) ->
    valid_image im ->
    (forall t s, In (Copy t s) l ->
       in_image im (fst s) (snd s) = true /\ in_image im (fst t) (snd t) = true) ->
    exists im', run draw_outline read l im = Some im'
                /\ size im' = size im /\ valid_image im'.
Proof.
    intros KV R V0 B.
    assert (G : forall p, size p = size im -> valid_image p ->
                exists im', run draw_outline read l p = Some im'
                            /\ size im' = size im /\ valid_image im').
    { induction l as [|o l IH]; intros p Sp Vp.
      - exists p. simpl. auto.
      - change (run draw_outline read (o :: l) p)
          with (Err.bind (apply_op draw_outline read o p) (run draw_outline read l)).
        assert (S1 : exists p1, apply_op draw_outline read o p = Some p1
                                /\ size p1 = size im /\ valid_image p1).
        { destruct o as [[x y] [sx sy]|magic]; simpl.
          - destruct (B (x, y) (sx, sy) (or_introl eq_refl)) as [Bs Bt]. simpl in *.
            destruct (R p Sp Vp) as [Rs Rv].
            unfold getpixel. rewrite (in_image_size _ im) by exact Rs. rewrite Bs. simpl.
            destruct (filter_valid _ (Rv sx sy)) as [-> Vw]. simpl.
            unfold putpixel. rewrite (in_image_size _ im) by exact Sp. rewrite Bt.
            eexists. split; [reflexivity|]. simpl. split; [exact Sp|].
            intros x' y'. simpl. destruct ((x' =? x) && (y' =? y)); [exact Vw | apply Vp].
          - eexists. split; [reflexivity|]. split; [rewrite draw_size; exact Sp|].
            apply KV; exact Vp. }
        destruct S1 as (p1 & -> & Sp1 & Vp1). simpl.
        apply IH; auto. intros t s H. apply B. right. exact H. }
    apply G; auto.
Qed.

End Run.

(** ** The library's pixel access *)

Lemma wrap_index_range (length i : Z) :
  0 <= wrap_index length i < length <-> - length <= i < length.
Proof.
  unfold wrap_index. destruct (i <? 0) eqn:E.
  - apply Z.ltb_lt in E. lia.
  - apply Z.ltb_ge in E. lia.
Qed.

Lemma in_image_wrap (im : Image) (xy : Z * Z) :
  in_image im (fst (wrap (size im) xy)) (snd (wrap (size im) xy)) = true
  <-> reachable (size im) xy.
Proof.
  unfold in_image, wrap, reachable. cbn [fst snd].
  rewrite !andb_true_iff, !Z.leb_le, !Z.ltb_lt.
  pose proof (wrap_index_range (fst (size im)) (fst xy)).
  pose proof (wrap_index_range (snd (size im)) (snd xy)).
  lia.
Qed.

Lemma wrap_on_grid (im : Image) (xy : Z * Z) :
  in_image im (fst xy) (snd xy) = true -> wrap (size im) xy = xy.
Proof.
  unfold in_image, wrap, wrap_index. rewrite !andb_true_iff, !Z.leb_le, !Z.ltb_lt.
  intros H. destruct xy as [x y]. cbn [fst snd] in *.
  destruct (x <? 0) eqn:Ex; [apply Z.ltb_lt in Ex; lia|].
  destruct (y <? 0) eqn:Ey; [apply Z.ltb_lt in Ey; lia|].
  reflexivity.
Qed.

Lemma pil_apply_op_wrap (draw_outline : Image -> polygon float -> Image)
      (o : op) (p : Image) :
  pil_apply_op draw_outline o p
  = apply_op draw_outline (fun pixels => pixels) (wrap_op (size p) o) p.
Proof. destruct o as [[x y] [sx sy]|magic]; reflexivity. Qed.

Section Pil.
Variable draw_outline : Image -> polygon float -> Image.
Hypothesis draw_size : keeps_size draw_outline.

  (** A run with the library's access is the run on the grid of the
      operations with their indices wrapped. *)
Lemma pil_run_wrap (l : list op) (im : Image) :
    pil_run draw_outline l im
    = run draw_outline (fun pixels => pixels) (map (wrap_op (size im)) l) im.
Proof.
    revert im; induction l as [|o l IH]; intros im; [reflexivity|].
    cbn [map].
    change (pil_run draw_outline (o :: l) im)
      with (Err.bind (pil_apply_op draw_outline o im) (pil_run draw_outline l)).
    change (run draw_outline (fun pixels => pixels)
                (wrap_op (size im) o :: map (wrap_op (size im)) l) im)
      with (Err.bind (apply_op draw_outline (fun pixels => pixels)
                               (wrap_op (size im) o) im)
                     (run draw_outline (fun pixels => pixels)
                          (map (wrap_op (size im)) l))).
    rewrite pil_apply_op_wrap.
    destruct (apply_op draw_outline (fun pixels => pixels) (wrap_op (size im) o) im)
      as [im1|] eqn:E; cbn [Err.bind]; [|reflexivity].
    rewrite IH.
    rewrite (apply_op_size draw_outline (fun pixels => pixels) draw_size _ _ _ E).
    reflexivity.
Qed.

Lemma pil_region_fused (G : Globals) (item : string * polygon float) (im : Image) :
    pil_region draw_outline G item im
    = (l <- region_ops G item ;; pil_run draw_outline l im).
Proof.
    destruct item as [name magic]. unfold pil_region, region_ops.
    destruct (Polygon magic) as [ring|]; simpl; [|reflexivity].
    destruct (bounds ring) as [[[[min_x min_y] max_x] max_y]|]; simpl; [|reflexivity].
    rewrite foldM_prod.
    rewrite (foldM_filter
               (fun xy => contains ring (inject_Z (fst xy), inject_Z (snd xy)))
               (fun xy => pil_move_pixel G name magic (fst xy) (snd xy))).
    rewrite (foldM_ext _
               (fun xy t =>
                  o <- (fun xy : Z * Z =>
                          '(x_trans, y_trans) <- translation G name magic ;;
                          Some (Copy xy (fst xy + x_trans, snd xy + y_trans))) xy ;;
                  pil_apply_op draw_outline o t)).
    - rewrite foldM_mapM.
      destruct (Err.mapM _ _) as [copies|]; simpl; [|reflexivity].
      unfold pil_run. rewrite foldM_app. simpl.
      destruct (Err.foldM _ copies im); reflexivity.
    - intros [x y] t. unfold pil_move_pixel. simpl.
      destruct (translation G name magic) as [[xt yt]|]; reflexivity.
Qed.

Lemma pil_remap_fused (G : Globals) (im : Image) :
    pil_remap draw_outline G im = (l <- ops G ;; pil_run draw_outline l im).
Proof.
    unfold pil_remap, ops.
    rewrite (foldM_ext _ (fun item t => os <- region_ops G item ;;
                                     Err.foldM (pil_apply_op draw_outline) os t)).
    - rewrite foldM_concat. unfold ops_of.
      destruct (Err.mapM (region_ops G) (g_magics G)); reflexivity.
    - intros item t. apply pil_region_fused.
Qed.

  (** Every copy of a run that succeeds reads and writes at an index the
      library accepts. *)
Lemma pil_run_reachable (l : list op) (im im' : Image) (t s : Z * Z) :
    pil_run draw_outline l im = Some im' -> In (Copy t s) l ->
    reachable (size im) s /\ reachable (size im) t.
Proof.
    rewrite pil_run_wrap. intros E H.
    apply (in_map (wrap_op (size im))) in H. cbn [wrap_op] in H.
    destruct (run_in_image draw_outline (fun pixels => pixels) draw_size _ im im'
                _ _ (fun p Sp => Sp) E H) as [Bs Bt].
    apply in_image_wrap in Bs. apply in_image_wrap in Bt. auto.
Qed.

  (** A run whose copies all stay at indices the library accepts succeeds on
      an image of byte channels. *)
Lemma pil_run_succeeds (l : list op) (im : Image) :
    keeps_valid draw_outline -> valid_image im ->
    (forall t s, In (Copy t s) l ->
       reachable (size im) s /\ reachable (size im) t) ->
    exists im', pil_run draw_outline l im = Some im'
                /\ size im' = size im /\ valid_image im'.
Proof.
    intros KV V B. rewrite pil_run_wrap.
    apply (run_succeeds draw_outline (fun pixels => pixels) draw_size _ im KV
             (fun p S Vp => conj S Vp) V).
    intros t' s' H. apply in_map_iff in H. destruct H as (o & Eo & H).
    destruct o as [t s|magic]; cbn [wrap_op] in Eo; [|discriminate Eo].
    inversion Eo; subst t' s'. destruct (B t s H) as [Bs Bt].
    split; apply in_image_wrap; assumption.
Qed.

  (** Where the run on the grid succeeds, the run with the library's access
      gives the same image. *)
Lemma pil_run_agrees (l : list op) (im im' : Image) :
    run draw_outline (fun pixels => pixels) l im = Some im' ->
    pil_run draw_outline l im = Some im'.
Proof.
    intros E. rewrite pil_run_wrap.
    rewrite (map_ext_in (wrap_op (size im)) (fun o => o)).
    - rewrite map_id. exact E.
    - intros o H. destruct o as [t s|magic]; [|reflexivity].
      destruct (run_in_image draw_outline (fun pixels => pixels) draw_size l im im'
                  t s (fun p Sp => Sp) E H) as [Bs Bt].
      cbn [wrap_op]. rewrite (wrap_on_grid im t Bt), (wrap_on_grid im s Bs).
      reflexivity.
Qed.

Lemma pil_remap_agrees (G : Globals) (im im' : Image) :
    remap draw_outline G im = Some im' -> pil_remap draw_outline G im = Some im'.
Proof.
    unfold remap, remap_with. rewrite remap_fused, pil_remap_fused. fold (ops G).
    destruct (ops G) as [l|]; cbn [Err.bind]; [|discriminate].
    apply pil_run_agrees.
Qed.

End Pil.

(* ================================================================== *)
(** * The mirror map *)

(** C6.  For each of the four orientation names [R] the mirror map is
    defined, sends [R] to a different name and sends that name back to [R];
    it pairs top-left with bottom-right and top-right with bottom-left. *)
Theorem mirrors_involution :
  map fst mirrors = ["top-left"; "top-right"; "bottom-left"; "bottom-right"]%string
  /\ Forall (fun R => exists R', lookup mirrors R = Some R'
                                 /\ lookup mirrors R' = Some R
                                 /\ R' <> R)
            (map fst mirrors)
  /\ lookup mirrors "top-left" = Some "bottom-right"%string
  /\ lookup mirrors "bottom-right" = Some "top-left"%string
  /\ lookup mirrors "top-right" = Some "bottom-left"%string
  /\ lookup mirrors "bottom-left" = Some "top-right"%string.
Proof.
  split; [reflexivity|]. split; [|repeat split].
  repeat constructor; eexists; (split; [reflexivity|]); (split; [reflexivity|]);
    discriminate.
Qed.

(* ================================================================== *)
(** * The brightness filter *)

(** C3, as the specification states it, fails: the product by 1.3 is
    truncated, not rounded, so channel 196 gives 254 (not 255) and channel 2
    gives 2 (not 3). *)
Lemma filter_truncates_196 :
  filter [196; 2; 128] = Some [254; 2; 166]
  /\ limit 196 = Some 254
  /\ limit 2 = Some 2.
Proof. vm_compute. auto. Qed.

(** C3, amended.  For every pixel of byte channels the filter returns, for
    each channel [c] independently, [min(floor(c * 1.3), 255)]; it gives 255
    for every channel of 197 or more (254 for 196), 0 for channel 0, and it
    is monotonically non-decreasing. *)
Theorem filter_bytes :
  (forall v, valid_pixel v -> filter v = Some (map brighten v))
  /\ (forall c, 0 <= c <= 255 -> limit c = Some (Z.min (c * 13 / 10) 255))
  /\ (forall c, 197 <= c <= 255 -> limit c = Some 255)
  /\ limit 196 = Some 254
  /\ limit 0 = Some 0
  /\ (forall a b ra rb, 0 <= a <= b -> b <= 255 ->
        limit a = Some ra -> limit b = Some rb -> ra <= rb).
Proof.
  split; [intros v Hv; apply filter_valid; exact Hv|].
  split; [intros c Hc; apply limit_byte; exact Hc|].
  split.
  - intros c Hc. rewrite limit_byte by lia. unfold brighten. f_equal.
    apply Z.min_r. apply Z.div_le_lower_bound; lia.
  - split; [vm_compute; reflexivity|]. split; [vm_compute; reflexivity|].
    intros a b ra rb Hab Hb Ea Eb.
    rewrite limit_byte in Ea by lia. rewrite limit_byte in Eb by lia.
    inversion Ea; inversion Eb; subst. unfold brighten.
    apply Z.min_le_compat_r. apply Z.div_le_mono; lia.
Qed.

(* ================================================================== *)
(** * The command line *)

(** C9.  With fewer than two positional arguments the program prints the
    usage message and exits with code 0, without asking the file system
    anything; with an input path that is not an existing file it prints the
    input-file message and exits with code 0; in neither case is [main]
    called, so no image is opened, decoded or processed. *)
Theorem entry_handled_errors (isfile : string -> bool)
        (to_float : string -> option float) (argv : list string) :
  ((List.length argv < 3)%nat ->
     entry isfile to_float argv
     = [ Print "error: missing arguments";
         Print "usage: ./main.py INPUT_IMAGE OUTPUT_IMAGE [ETH_SCALE]";
         Exit 0 ])
  /\ ((3 <= List.length argv)%nat -> isfile (nth 1 argv ""%string) = false ->
        entry isfile to_float argv
        = [ IsFile (nth 1 argv ""%string);
            Print "error: cannot open input file";
            Exit 0 ])
  /\ ((List.length argv < 3)%nat \/ isfile (nth 1 argv ""%string) = false ->
        existsb processes (entry isfile to_float argv) = false).
Proof.
  unfold entry. destruct (List.length argv <? 3)%nat eqn:E.
  - apply Nat.ltb_lt in E. split; [reflexivity|]. split; [lia | reflexivity].
  - apply Nat.ltb_ge in E. split; [lia|]. split.
    + intros _ F. rewrite F. reflexivity.
    + intros [L | F]; [lia|]. rewrite F. reflexivity.
Qed.

(** The two handled errors on concrete command lines, and a command line
    that reaches [main]; the conversion is the one of a process that is
    only ever given the text 1.5. *)
Example entry_runs :
  let to_float := fun _ : string => Some 1.5%float in
  entry (fun _ => true) to_float ["./main.py"; "in.png"]%string
  = [ Print "error: missing arguments";
      Print "usage: ./main.py INPUT_IMAGE OUTPUT_IMAGE [ETH_SCALE]";
      Exit 0 ]
  /\ entry (fun _ => false) to_float ["./main.py"; "in.png"; "out.png"]%string
     = [ IsFile "in.png"; Print "error: cannot open input file"; Exit 0 ]
  /\ entry (fun _ => true) to_float ["./main.py"; "in.png"; "out.png"; "1.5"]%string
     = [ IsFile "in.png"; Main "in.png" "out.png" (Some 1.5%float) ].
Proof. repeat split. Qed.

(* ================================================================== *)
(** * The geometry scaler, in exact arithmetic *)

Section RealScale.
Local Open Scope R_scope.

Lemma half_real : @half R _ = 1 / 2.
Proof. unfold half, lit. simpl. lra. Qed.

  (** The distance of a vertex from the centre is zero exactly at the
      centre. *)
Lemma dist_zero (x y : R) :
    R_sqrt.sqrt ((y - 1 / 2) * (y - 1 / 2) + (x - 1 / 2) * (x - 1 / 2)) = 0
    <-> x = 1 / 2 /\ y = 1 / 2.
Proof.
    split.
    - intros E. apply sqrt_eq_0 in E.
      + apply (Rplus_sqr_eq_0 (y - 1 / 2) (x - 1 / 2)) in E. lra.
      + apply Rplus_le_le_0_compat; apply (Rle_0_sqr (_ - _)).
    - intros [-> ->].
      replace ((1 / 2 - 1 / 2) * (1 / 2 - 1 / 2) + (1 / 2 - 1 / 2) * (1 / 2 - 1 / 2))
        with 0 by lra.
      apply sqrt_0.
Qed.

Lemma resize_real (s x y : R) :
    resize s (x, y)
    = if Req_EM_T (R_sqrt.sqrt ((y - 1 / 2) * (y - 1 / 2) + (x - 1 / 2) * (x - 1 / 2))) 0
      then None
      else
        let dist := R_sqrt.sqrt ((y - 1 / 2) * (y - 1 / 2) + (x - 1 / 2) * (x - 1 / 2)) in
        Some (dist * s * ((x - 1 / 2) / dist) + 1 / 2,
              dist * s * ((y - 1 / 2) / dist) + 1 / 2).
Proof.
    unfold resize, div. rewrite half_real. simpl.
    destruct (Req_EM_T _ 0); reflexivity.
Qed.


Lemma resize_one (v : R * R) : v <> (1 / 2, 1 / 2) -> resize 1 v = Some v.
Proof.
    destruct v as [x y]. intros N. rewrite resize_real.
    destruct (Req_EM_T _ 0) as [E | D].
    - apply dist_zero in E. destruct E; subst. contradiction.
    - simpl. f_equal. f_equal; field; exact D.
Qed.


End RealScale.

(** In exact (real) arithmetic, for every relative polygon whose vertices
    all differ from the centre (0.5, 0.5), the geometry scaler with scale
    factor 1 returns exactly the vertices [(x * width, y * height)]. *)
Lemma scale_one_real (magic : polygon R) (width height : Z) :
  Forall (fun v => v <> (1 / 2, 1 / 2)%R) magic ->
  scale magic 1%R width height
  = Some (map (fun v => (fst v * IZR width, snd v * IZR height)%R) magic).
Proof.
  intros F. unfold scale.
  assert (E : Err.mapM (resize 1%R) magic = Some magic).
  { induction F as [|v magic N _ IH]; cbn [Err.mapM]; [reflexivity|].
    rewrite (resize_one v N). cbn [Err.bind]. rewrite IH. reflexivity. }
  rewrite E. reflexivity.
Qed.



(* ================================================================== *)
(** * The geometry scaler, in binary64 *)

(** The vertex (0.5, 0.183) at width 1920 and height 1266, scale 1. *)
Lemma scale_one_vertex_binary64 :
  scale [(0.5, 0.183)%float] 1%float 1920 1266 = Some [(960, 231.678)%float].
Proof. vm_compute. reflexivity. Qed.


Lemma In_off_centre_grid (i j : Z) :
  0 <= i <= 100 -> 0 <= j <= 100 -> (i =? 50) && (j =? 50) = false ->
  In (hundredth i, hundredth j) off_centre_grid.
Proof.
  intros Hi Hj N. unfold off_centre_grid.
  apply (in_map grid_vertex _ (i, j)). apply filter_In. split.
  - unfold grid_indices. apply in_prod; apply In_range; lia.
  - cbn [fst snd]. rewrite N. reflexivity.
Qed.

(** Every vertex of the grid but the centre has a non-zero distance from
    the centre, and scale factor 1 moves it by at most [2^-50]. *)
Lemma off_centre_grid_table :
  forallb (fun v =>
             negb (is_zero (centre_distance v))
             && match resize 1%float v with
                | Some r => near (fst v) (fst r) && near (snd v) (snd r)
                | None => false
                end) off_centre_grid = true.
Proof. vm_compute. reflexivity. Qed.

(** The 16 vertices of the templates have a non-zero distance from the
    centre, and scale factor 1 returns each of them as it is. *)
Lemma template_vertices_table :
  Forall (fun v => is_zero (centre_distance v) = false
                   /\ resize 1%float v = Some v) template_vertices.
Proof. vm_compute. repeat constructor. Qed.









(** Binary64, scale factor 1, on polygons of template vertices: nothing
    moves. *)
Lemma scale_one_templates (magic : polygon float) (width height : Z) :
  Forall (fun v => In v template_vertices) magic ->
  scale magic 1%float width height
  = Some (map (fun v => (PrimFloat.mul (fst v) (Z2F width),
                         PrimFloat.mul (snd v) (Z2F height))) magic).
Proof.
  intros F. unfold scale.
  assert (E : Err.mapM (resize 1%float) magic = Some magic).
  { induction F as [|v magic Hv _ IH]; cbn [Err.mapM]; [reflexivity|].
    pose proof (proj1 (Forall_forall _ _) template_vertices_table v Hv) as [_ T].
    rewrite T. cbn [Err.bind]. rewrite IH. reflexivity. }
  rewrite E. reflexivity.
Qed.

(** Binary64, scale factor 1, on polygons of grid vertices: every vertex
    stays within [2^-50] of where it was. *)
Lemma scale_one_grid (magic : polygon float) (width height : Z) :
  Forall (fun v => In v off_centre_grid) magic ->
  exists resized,
    Forall2 (fun v r => near (fst v) (fst r) = true /\ near (snd v) (snd r) = true)
            magic resized
    /\ scale magic 1%float width height
       = Some (map (fun r => (PrimFloat.mul (fst r) (Z2F width),
                              PrimFloat.mul (snd r) (Z2F height))) resized).
Proof.
  intros F. unfold scale.
  assert (E : exists resized,
             Forall2 (fun v r => near (fst v) (fst r) = true
                                 /\ near (snd v) (snd r) = true) magic resized
             /\ Err.mapM (resize 1%float) magic = Some resized).
  { induction F as [|v magic Hv _ (resized & F2 & IH)]; cbn [Err.mapM].
    - exists []. split; [constructor | reflexivity].
    - pose proof (proj1 (forallb_forall _ _) off_centre_grid_table v Hv) as T.
      apply andb_true_iff in T. destruct T as [_ T].
      destruct (resize 1%float v) as [r|]; [|discriminate T].
      apply andb_true_iff in T.
      exists (r :: resized). split; [constructor; assumption|].
      cbn [Err.bind]. rewrite IH. reflexivity. }
  destruct E as (resized & F2 & ->). exists resized. split; [exact F2 | reflexivity].
Qed.

(** C7, as the specification states it, fails in the arithmetic of the
    program: at scale factor 1 the triangle (0.1, 0.1), (0.9, 0.1),
    (0.5, 0.9) on a 1920 x 1266 image comes back with its first vertex at
    (191.99999999999994, 126.59999999999997), where [(x * width, y * height)]
    is (192, 126.60000000000001). *)
Lemma scale_one_distorts_binary64 :
  scale [(0.1, 0.1); (0.9, 0.1); (0.5, 0.9)]%float 1%float 1920 1266
  = Some [(191.99999999999994, 126.59999999999997);
          (1728, 126.59999999999997); (960, 1139.4)]%float
  /\ map (fun v => (PrimFloat.mul (fst v) (Z2F 1920), PrimFloat.mul (snd v) (Z2F 1266)))
         [(0.1, 0.1); (0.9, 0.1); (0.5, 0.9)]%float
     = [(192, 126.60000000000001); (1728, 126.60000000000001); (960, 1139.4)]%float
  /\ PrimFloat.eqb 191.99999999999994 192 = false
  /\ PrimFloat.eqb 126.59999999999997 126.60000000000001 = false.
Proof.
  repeat match goal with |- _ /\ _ => split end; vm_compute; reflexivity.
Qed.

(** C7, amended.  At scale factor 1 the geometry scaler returns exactly the
    vertices [(x * width, y * height)] in exact (real) arithmetic, for every
    polygon without the centre (0.5, 0.5); in the binary64 arithmetic of the
    program it does so for the vertices of the four templates, for every
    width and height, while a vertex of the hundredths grid of the unit
    square (other than the centre) is first moved by at most [2^-50] and
    then multiplied by the width and the height.  The vertex (0.5, 0.183) at
    width 1920 and height 1266 maps to (960, 231.678). *)
Theorem scale_one_undistorted :
  (forall (magic : polygon R) (width height : Z),
     Forall (fun v => v <> (1 / 2, 1 / 2)%R) magic ->
     scale magic 1%R width height
     = Some (map (fun v => (fst v * IZR width, snd v * IZR height)%R) magic))
  /\ (forall (magic : polygon float) (width height : Z),
        Forall (fun v => In v template_vertices) magic ->
        scale magic 1%float width height
        = Some (map (fun v => (PrimFloat.mul (fst v) (Z2F width),
                               PrimFloat.mul (snd v) (Z2F height))) magic))
  /\ (forall (magic : polygon float) (width height : Z),
        Forall (fun v => In v off_centre_grid) magic ->
        exists resized,
          Forall2 (fun v r => near (fst v) (fst r) = true
                              /\ near (snd v) (snd r) = true) magic resized
          /\ scale magic 1%float width height
             = Some (map (fun r => (PrimFloat.mul (fst r) (Z2F width),
                                    PrimFloat.mul (snd r) (Z2F height))) resized))
  /\ scale [(0.5, 0.183)%R] 1%R 1920 1266 = Some [(960, 231.678)%R]
  /\ scale [(0.5, 0.183)%float] 1%float 1920 1266 = Some [(960, 231.678)%float].
Proof.
  split; [exact scale_one_real|].
  split; [exact scale_one_templates|].
  split; [exact scale_one_grid|].
  split; [|exact scale_one_vertex_binary64].
  rewrite (scale_one_real [(0.5, 0.183)%R] 1920 1266).
  - simpl. repeat f_equal; lra.
  - repeat constructor. intros E. injection E as _ E. lra.
Qed.

(** The triangle (0.1, 0.1), (0.9, 0.1), (0.5, 0.9) of grid vertices on a
    1920 x 1266 image. *)
Lemma scale_one_undistorted_triangle :
  Forall (fun v => In v off_centre_grid) [(0.1, 0.1); (0.9, 0.1); (0.5, 0.9)]%float
  /\ exists resized,
       Forall2 (fun v r => near (fst v) (fst r) = true
                           /\ near (snd v) (snd r) = true)
               [(0.1, 0.1); (0.9, 0.1); (0.5, 0.9)]%float resized
       /\ scale [(0.1, 0.1); (0.9, 0.1); (0.5, 0.9)]%float 1%float 1920 1266
          = Some (map (fun r => (PrimFloat.mul (fst r) (Z2F 1920),
                                 PrimFloat.mul (snd r) (Z2F 1266))) resized).
Proof.
  assert (F : Forall (fun v => In v off_centre_grid)
                     [(0.1, 0.1); (0.9, 0.1); (0.5, 0.9)]%float).
  { constructor; [|constructor; [|constructor; [|constructor]]].
    - apply (In_off_centre_grid 10 10); [lia | lia | reflexivity].
    - apply (In_off_centre_grid 90 10); [lia | lia | reflexivity].
    - apply (In_off_centre_grid 50 90); [lia | lia | reflexivity]. }
  split; [exact F|].
  exact (proj1 (proj2 (proj2 scale_one_undistorted))
           [(0.1, 0.1); (0.9, 0.1); (0.5, 0.9)]%float 1920 1266 F).
Defined.


(** The scaler on a polygon with the centre as second vertex, in binary64:
    no polygon is returned. *)
Example scale_centre_binary64 :
  scale [(0.5, 0.183); (0.5, 0.5); (0.393, 0.445)]%float 1%float 1920 1266 = None.
Proof. vm_compute. reflexivity. Qed.

(* ================================================================== *)
(** * The crop of [load_image] *)

(** In exact arithmetic: the box handed to [crop] starts at half the excess
    but ends at the target width (or height) itself, not at the start plus
    the target width.  The margin cut on the right (bottom) is therefore the
    whole excess, twice the margin cut on the left (top), and the region
    kept is narrower (shorter) than the target by half the excess. *)
Lemma crop_box_real (width height : Z) :
  (0 < IZR height)%R ->
  let m := (1920 / 1266)%R in
  ((IZR width / IZR height > m)%R ->
     @crop_box R _ width height
     = Some (((IZR width - m * IZR height) / 2)%R, 0%R,
             (m * IZR height)%R, IZR height))
  /\ (~ (IZR width / IZR height > m)%R ->
        @crop_box R _ width height
        = Some (0%R, ((IZR height - IZR width / m) / 2)%R,
                IZR width, (IZR width / m)%R)).
Proof.
  intros Hh m. unfold crop_box, div, lit. simpl.
  destruct (Req_EM_T (IZR height) 0) as [E | _]; [lra|]. simpl.
  replace (192000 / 100 / 1266)%R with m by (unfold m; lra).
  destruct (Rlt_dec m (IZR width / IZR height)) as [L | L]; split; intros H;
    try reflexivity; unfold Rgt in H; contradiction.
Qed.

(** C4 fails on the code.  A 3000 x 1266 image is wider than 1920:1266 by
    1080 columns.  The centred crop would keep columns 540 to 2459; the
    program keeps columns 540 to 1919, an image 1380 wide: 540 columns are cut
    on the left and 1080 on the right.  Likewise a 1920 x 2000 image keeps
    rows 367 to 1265, 899 rows instead of 1266. *)
Theorem load_image_off_centre :
  (exists im, load_image (chart 3000 1266) = Some im
              /\ size im = (1380, 1266)
              /\ pixel_at im 0 0 = [540; 0]
              /\ pixel_at im 1379 1265 = [1919; 1265])
  /\ (exists im, load_image (chart 1920 2000) = Some im
                 /\ size im = (1920, 899)
                 /\ pixel_at im 0 0 = [0; 367]
                 /\ pixel_at im 1919 898 = [1919; 1265])
  /\ @crop_box float _ 3000 1266
     = Some (540.00000000000011, 0, 1919.9999999999998, 1266)%float.
Proof.
  split; [|split].
  - eexists. split; [vm_compute; reflexivity|]. repeat split.
  - eexists. split; [vm_compute; reflexivity|]. repeat split.
  - vm_compute. reflexivity.
Qed.

(** An image that already has the ratio 1920:1266 is returned whole. *)
Example load_image_1920 :
  exists im, load_image (solid 1920 1266 gray) = Some im
             /\ size im = (1920, 1266)
             /\ forall x y, pixel_at im x y = gray.
Proof. eexists. split; [vm_compute; reflexivity|]. split; reflexivity. Qed.

(* ================================================================== *)
(** * In-place remap against the snapshot design *)







(* ================================================================== *)
(** * The unguarded read *)

(** A scanned pixel of a region of the table is the target of a copy of the
    run, from the translated pixel. *)
Lemma ops_In_Copy (G : Globals) (items : dict (polygon float)) (l : list op)
      (name : string) (magic : polygon float) (t d : Z * Z) :
  ops_of G items = Some l -> In (name, magic) items ->
  scanned magic t = true -> translation G name magic = Some d ->
  In (Copy t (fst t + fst d, snd t + snd d)) l.
Proof.
  intros E H Hs ET. apply in_split in H. destruct H as (before & after & ->).
  apply ops_of_app in E. destruct E as (lb & la & _ & E & ->).
  apply ops_of_cons in E. destruct E as (l1 & l2 & E1 & _ & ->).
  destruct (region_ops_Copy G name magic l1 t d E1 Hs ET) as (c1 & c2 & -> & _).
  apply in_or_app. right. apply in_or_app. left. apply in_or_app. right. left.
  reflexivity.
Qed.

(* ================================================================== *)
(** * The polygon table after [main] *)



(** [main] on a 48 x 32 image succeeds and leaves the scaled polygon under
    "top-left". *)
Lemma main_48 :
  exists G' out,
    main no_outline no_watermark startup (solid 48 32 gray) 1%float = Some (G', out)
    /\ lookup (g_magics G') "top-left"
       = Some [(24, 5.8559999999999999); (18.864000000000001, 14.24);
               (24, 17.216000000000001); (24, 5.8559999999999999)]%float.
Proof.
  assert (X : match main no_outline no_watermark startup (solid 48 32 gray) 1%float with
              | Some (G', _) => lookup (g_magics G') "top-left"
              | None => None
              end
              = Some [(24, 5.8559999999999999); (18.864000000000001, 14.24);
                      (24, 17.216000000000001); (24, 5.8559999999999999)]%float)
    by (vm_compute; reflexivity).
  destruct (main no_outline no_watermark startup (solid 48 32 gray) 1%float)
    as [[G' out]|]; [|discriminate].
  exists G', out. split; [reflexivity | exact X].
Qed.




(* ================================================================== *)
(** * When the remap is defined, and what it leaves in a pixel *)

(** The check [region_fits] is sound: the operations of the region exist and
    every copy reads and writes inside the grid. *)
Lemma region_fits_sound (G : Globals) (width height : Z) (name : string)
      (magic : polygon float) :
  region_fits G width height (name, magic) = true ->
  exists l, region_ops G (name, magic) = Some l
            /\ forall t s, In (Copy t s) l ->
                 (0 <= fst s < width /\ 0 <= snd s < height)
                 /\ (0 <= fst t < width /\ 0 <= snd t < height).
Proof.
  unfold region_fits. simpl fst. simpl snd.
  destruct (Polygon magic) as [ring|] eqn:EP; [|discriminate].
  destruct (bounds ring) as [[[[min_x min_y] max_x] max_y]|] eqn:EB; [|discriminate].
  destruct (translation G name magic) as [[xt yt]|] eqn:ET; [|discriminate].
  rewrite !andb_true_iff, !Z.leb_le. intros H.
  assert (E : exists l, region_ops G (name, magic) = Some l).
  { unfold region_ops. rewrite EP. cbn [Err.bind]. rewrite EB. cbn [Err.bind].
    rewrite ET. cbn [Err.bind].
    rewrite (mapM_map _ (fun xy => Copy xy (fst xy + xt, snd xy + yt)))
      by (intros; reflexivity).
    cbn [Err.bind]. eauto. }
  destruct E as [l E]. exists l. split; [exact E|].
  destruct (region_ops_spec G name magic l E) as (copies & -> & _ & Hin & Hc).
  intros t s C. apply in_app_or in C. destruct C as [C | [C | []]]; [|discriminate].
  assert (Ht : scanned magic t = true) by (apply Hin, In_targets; eauto).
  destruct (Hc t s C) as (d & ET' & ->). rewrite ET in ET'. inversion ET'; subst d.
  apply (scanned_spec magic ring min_x min_y max_x max_y t EP EB) in Ht.
  apply filter_In in Ht. destruct Ht as [Ht _]. destruct t as [x y].
  apply in_prod_iff in Ht. rewrite !In_range in Ht. simpl. lia.
Qed.

Lemma ops_fit (G : Globals) (width height : Z) (items : dict (polygon float)) :
  forallb (region_fits G width height) items = true ->
  exists l, ops_of G items = Some l
            /\ forall t s, In (Copy t s) l ->
                 (0 <= fst s < width /\ 0 <= snd s < height)
                 /\ (0 <= fst t < width /\ 0 <= snd t < height).
Proof.
  unfold ops_of. induction items as [|[name magic] items IH]; cbn [forallb Err.mapM].
  - intros _. exists []. split; [reflexivity | intros ? ? []].
  - rewrite andb_true_iff. intros [F1 F2].
    destruct (region_fits_sound G width height name magic F1) as (l1 & -> & B1).
    destruct (IH F2) as (l2 & E2 & B2).
    destruct (Err.mapM (region_ops G) items) as [ls|]; [|discriminate].
    cbn [Err.bind option_map] in *. inversion E2; subst l2.
    exists (l1 ++ List.concat ls). split; [reflexivity|].
    intros t s C. apply in_app_or in C. destruct C; auto.
Qed.

(** A remap whose regions all fit the grid succeeds, in place and on a
    snapshot, on an image of byte channels. *)
Lemma remap_defined (draw_outline : Image -> polygon float -> Image)
      (read : Image -> Image) (G : Globals) (width height : Z) (im : Image) :
  keeps_size draw_outline -> keeps_valid draw_outline ->
  (forall p, size p = size im -> valid_image p ->
             size (read p) = size im /\ valid_image (read p)) ->
  size im = (width, height) -> valid_image im ->
  forallb (region_fits G width height) (g_magics G) = true ->
  exists l im',
    ops G = Some l
    /\ remap_with draw_outline read G im = Some im'
    /\ run draw_outline read l im = Some im'
    /\ size im' = (width, height).
Proof.
  intros KS KV R Sz V F.
  destruct (ops_fit G width height (g_magics G) F) as (l & E & B).
  destruct (run_succeeds draw_outline read KS l im KV R V) as (im' & Er & Si & _).
  { intros t s C. destruct (B t s C) as [Bs Bt].
    unfold in_image. rewrite Sz. simpl.
    rewrite !andb_true_iff, !Z.leb_le, !Z.ltb_lt. lia. }
  exists l, im'. unfold remap_with. rewrite remap_fused. unfold ops. rewrite E.
  cbn [Err.bind]. rewrite Er, Si. auto.
Qed.

(** The copy into a scanned pixel [q], inside the operations of a list of
    regions. *)
Lemma ops_split (G : Globals) (before after : dict (polygon float))
      (name : string) (magic : polygon float) (l : list op) (q d : Z * Z) :
  ops_of G (before ++ (name, magic) :: after) = Some l ->
  scanned magic q = true -> translation G name magic = Some d ->
  exists lb c1 c2 la,
    ops_of G before = Some lb /\ ops_of G after = Some la
    /\ l = (lb ++ c1) ++ Copy q (fst q + fst d, snd q + snd d) :: (c2 ++ la)
    /\ ~ In q (targets c1) /\ ~ In q (targets c2)
    /\ (forall u, In u (targets c1) -> scanned magic u = true)
    /\ (forall u, In u (targets c2) -> scanned magic u = true).
Proof.
  intros E Hs ET.
  apply ops_of_app in E. destruct E as (lb & l' & Eb & E & ->).
  apply ops_of_cons in E. destruct E as (l1 & la & E1 & Ea & ->).
  destruct (region_ops_Copy G name magic l1 q d E1 Hs ET)
    as (c1 & c2 & -> & N1 & N2 & S1 & S2).
  exists lb, c1, c2, la. repeat split; auto.
  rewrite <- !app_assoc. reflexivity.
Qed.

(** Not scanned by any region of the list: not a target of its operations. *)
Lemma ops_of_not_target (G : Globals) (items : dict (polygon float))
      (l : list op) (q : Z * Z) :
  ops_of G items = Some l ->
  (forall item, In item items -> scanned (snd item) q = false) ->
  ~ In q (targets l).
Proof.
  intros E N C. destruct (ops_of_targets G items l q E C) as (item & Hi & Hs).
  rewrite (N item Hi) in Hs. discriminate.
Qed.

Section Value.
Variable draw_outline : Image -> polygon float -> Image.
Variable read : Image -> Image.

  (** A pixel outside every region, which no outline touches, is left as it
      was. *)
Lemma remap_outside (G : Globals) (l : list op) (im im' : Image) (q : Z * Z) :
    ops G = Some l -> run draw_outline read l im = Some im' ->
    (forall item, In item (g_magics G) -> scanned (snd item) q = false) ->
    keeps draw_outline q ->
    pixel_at im' (fst q) (snd q) = pixel_at im (fst q) (snd q).
Proof.
    intros E R N K. apply (run_untouched draw_outline read l im im' q R); [|exact K].
    apply (ops_of_not_target G (g_magics G) l q E N).
Qed.

  (** A pixel [q] scanned by a region, and by no later region, ends with
      the filtered value that was at its source when the region reached
      [q]; that moment is the end of the run of [lb ++ c1], the operations
      of the earlier regions followed by copies of the region itself.
      ([extra] stands for operations that follow the regions and do not
      write [q].) *)
Lemma remap_inside (G : Globals) (before after : dict (polygon float))
        (name : string) (magic : polygon float) (l extra : list op)
        (im im' : Image) (q d : Z * Z) :
    ops_of G (before ++ (name, magic) :: after) = Some l ->
    run draw_outline read (l ++ extra) im = Some im' ->
    scanned magic q = true -> translation G name magic = Some d ->
    (forall item, In item after -> scanned (snd item) q = false) ->
    ~ In q (targets extra) ->
    keeps draw_outline q ->
    exists lb c1 im1,
      ops_of G before = Some lb
      /\ (forall u, In u (targets c1) -> scanned magic u = true)
      /\ ~ In q (targets c1)
      /\ run draw_outline read (lb ++ c1) im = Some im1
      /\ filter (pixel_at (read im1) (fst q + fst d) (snd q + snd d))
         = Some (pixel_at im' (fst q) (snd q)).
Proof.
    intros E R Hs ET N Nx K.
    destruct (ops_split G before after name magic l q d E Hs ET)
      as (lb & c1 & c2 & la & Eb & Ea & -> & N1 & N2 & S1 & S2).
    rewrite <- app_assoc in R. cbn [app] in R.
    destruct (run_last_copy draw_outline read (lb ++ c1) ((c2 ++ la) ++ extra)
                im im' q _ R)
      as (im1 & R1 & V); [|exact K|].
    - rewrite !targets_app. intros C.
      apply in_app_or in C. destruct C as [C | C]; [|exact (Nx C)].
      apply in_app_or in C. destruct C as [C | C].
      + exact (N2 C).
      + exact (ops_of_not_target G after la q Ea N C).
    - exists lb, c1, im1. auto.
Qed.

  (** The state [im1] of the lemma above at a pixel that neither the
      earlier regions nor the region itself scan. *)
Lemma prefix_outside (G : Globals) (before : dict (polygon float))
        (magic : polygon float) (lb c1 : list op) (im im1 : Image) (s : Z * Z) :
    ops_of G before = Some lb ->
    (forall u, In u (targets c1) -> scanned magic u = true) ->
    run draw_outline read (lb ++ c1) im = Some im1 ->
    (forall item, In item before -> scanned (snd item) s = false) ->
    scanned magic s = false ->
    keeps draw_outline s ->
    pixel_at im1 (fst s) (snd s) = pixel_at im (fst s) (snd s).
Proof.
    intros Eb S1 R N Ns K.
    apply (run_untouched draw_outline read (lb ++ c1) im im1 s R); [|exact K].
    rewrite targets_app. intros C. apply in_app_or in C. destruct C as [C | C].
    - exact (ops_of_not_target G before lb s Eb N C).
    - rewrite (S1 s C) in Ns. discriminate.
Qed.

End Value.

Lemma main_unfold (draw_outline : Image -> polygon float -> Image)
      (add_watermark : Image -> option Image)
      (G : Globals) (file im : Image) (eth_scale : float)
      (table : dict (polygon float)) :
  load_image file = Some im ->
  rescale (g_magics G) eth_scale (fst (size im)) (snd (size im)) = Some table ->
  main draw_outline add_watermark G file eth_scale
  = (im' <- remap draw_outline {| g_magics := table; g_mirrors := g_mirrors G |} im ;;
     out <- add_watermark im' ;;
     Some ({| g_magics := table; g_mirrors := g_mirrors G |}, out)).
Proof.
  unfold main. intros ->. cbn [Err.bind]. destruct (size im) as [w h].
  cbn [fst snd]. intros ->. reflexivity.
Qed.

(* ================================================================== *)
(** * The solid gray 1920 x 1266 image at scale 1 *)

(** The tables [main] computes for this input, region by region. *)
Lemma table_1920_items :
  rescale (g_magics startup) 1%float 1920 1266 = Some table_1920
  /\ table_1920
     = [ ("top-left"%string, polygon_of G_1920 "top-left");
         ("top-right"%string, polygon_of G_1920 "top-right");
         ("bottom-left"%string, polygon_of G_1920 "bottom-left");
         ("bottom-right"%string, polygon_of G_1920 "bottom-right") ].
Proof. split; vm_compute; reflexivity. Qed.

Lemma ops_unfold (G : Globals) : ops G = ops_of G (g_magics G).
Proof. reflexivity. Qed.

Lemma magics_1920 :
  g_magics G_1920
  = [ ("top-left"%string, polygon_of G_1920 "top-left");
      ("top-right"%string, polygon_of G_1920 "top-right");
      ("bottom-left"%string, polygon_of G_1920 "bottom-left");
      ("bottom-right"%string, polygon_of G_1920 "bottom-right") ].
Proof. vm_compute. reflexivity. Qed.

Lemma fits_1920 :
  forallb (region_fits G_1920 1920 1266) (g_magics G_1920) = true.
Proof. vm_compute. reflexivity. Qed.

(** The pixel (1159, 601) lies in the bottom-right region only and its
    source is (958, 236); the pixel (958, 236) lies in the top-left region
    only and its source is (1159, 601). *)
Lemma seam_pixels_1920 :
  (scanned (polygon_of G_1920 "top-left") (1159, 601) = false
   /\ scanned (polygon_of G_1920 "top-right") (1159, 601) = false
   /\ scanned (polygon_of G_1920 "bottom-left") (1159, 601) = false
   /\ scanned (polygon_of G_1920 "bottom-right") (1159, 601) = true)
  /\ (scanned (polygon_of G_1920 "top-left") (958, 236) = true
      /\ scanned (polygon_of G_1920 "top-right") (958, 236) = false
      /\ scanned (polygon_of G_1920 "bottom-left") (958, 236) = false
      /\ scanned (polygon_of G_1920 "bottom-right") (958, 236) = false)
  /\ translation G_1920 "bottom-right" (polygon_of G_1920 "bottom-right")
     = Some (-201, -365)
  /\ translation G_1920 "top-left" (polygon_of G_1920 "top-left")
     = Some (201, 365).
Proof.
  repeat match goal with |- _ /\ _ => split end; vm_compute; reflexivity.
Qed.

Lemma valid_gray (width height : Z) : valid_image (solid width height gray).
Proof. intros x y. simpl. repeat constructor; lia. Qed.

Lemma filter_gray :
  filter gray = Some [166; 166; 166]
  /\ filter [166; 166; 166] = Some [215; 215; 215].
Proof. split; vm_compute; reflexivity. Qed.

Section Gray.
#[local] Opaque scanned translation polygon_of filter.
Variable draw_outline : Image -> polygon float -> Image.
Variable read : Image -> Image.
Hypothesis draw_size : keeps_size draw_outline.
Hypothesis draw_valid : keeps_valid draw_outline.
Hypothesis read_ok :
    forall p, size p = (1920, 1266) -> valid_image p ->
              size (read p) = (1920, 1266) /\ valid_image (read p).

Let input : Image := solid 1920 1266 gray.

Lemma gray_runs :
    exists l im,
      ops G_1920 = Some l
      /\ remap_with draw_outline read G_1920 input = Some im
      /\ run draw_outline read l input = Some im
      /\ size im = (1920, 1266).
Proof.
    apply (remap_defined draw_outline read G_1920 1920 1266 input
             draw_size draw_valid).
    - exact read_ok.
    - reflexivity.
    - apply valid_gray.
    - apply fits_1920.
Qed.

  (** The bottom-right pixel (1159, 601) ends with the filtered value of
      what the buffer read shows at (958, 236) when the last region reaches
      it; by then (958, 236) holds the filtered value of what was read at
      (1159, 601) when the first region copied it. *)
Lemma gray_seam (l : list op) (im : Image) :
    ops G_1920 = Some l -> run draw_outline read l input = Some im ->
    keeps draw_outline (1159, 601) -> keeps draw_outline (958, 236) ->
    exists im0 im1,
      pixel_at im0 1159 601 = gray
      /\ filter (pixel_at (read im0) 1159 601) = Some (pixel_at im1 958 236)
      /\ filter (pixel_at (read im1) 958 236) = Some (pixel_at im 1159 601).
Proof.
    intros E R Kq Ks.
    destruct seam_pixels_1920
      as ((Sq1 & Sq2 & Sq3 & Sq4) & (Ss1 & Ss2 & Ss3 & Ss4) & Tq & Ts).
    rewrite ops_unfold, magics_1920 in E.
    rewrite <- (app_nil_r l) in R.
    destruct (remap_inside draw_outline read G_1920
                [ ("top-left"%string, polygon_of G_1920 "top-left");
                  ("top-right"%string, polygon_of G_1920 "top-right");
                  ("bottom-left"%string, polygon_of G_1920 "bottom-left") ]
                [] "bottom-right" (polygon_of G_1920 "bottom-right")
                l [] input im (1159, 601) (-201, -365) E R Sq4 Tq)
      as (lb & c1 & im1 & Eb & S1 & _ & R1 & V1);
      [intros ? [] | intros [] | exact Kq |].
    destruct (remap_inside draw_outline read G_1920 []
                [ ("top-right"%string, polygon_of G_1920 "top-right");
                  ("bottom-left"%string, polygon_of G_1920 "bottom-left") ]
                "top-left" (polygon_of G_1920 "top-left")
                lb c1 input im1 (958, 236) (201, 365) Eb R1 Ss1 Ts)
      as (lb0 & c0 & im0 & Eb0 & S0 & _ & R0 & V0); [| |exact Ks|].
    - intros item [<- | [<- | []]]; [exact Ss2 | exact Ss3].
    - intros C. rewrite (S1 _ C) in Ss4. discriminate Ss4.
    - exists im0, im1. split; [|split; [exact V0 | exact V1]].
      exact (prefix_outside draw_outline read G_1920 []
               (polygon_of G_1920 "top-left") lb0 c0 input im0 (1159, 601)
               Eb0 S0 R0 (fun _ H => match H with end) Sq1 Kq).
Qed.

End Gray.

Lemma solid_pixel (width height : Z) (v : pixel) (x y : Z) :
  pixel_at (solid width height v) x y = v.
Proof. reflexivity. Qed.

Lemma load_image_gray_1920 :
  load_image (solid 1920 1266 gray) = Some (solid 1920 1266 gray).
Proof. vm_compute. reflexivity. Qed.

(** [main] on the gray image at scale 1 is the remap with the tables
    [G_1920], followed by the watermark. *)
Lemma main_1920 (draw_outline : Image -> polygon float -> Image)
      (add_watermark : Image -> option Image) :
  main draw_outline add_watermark startup (solid 1920 1266 gray) 1%float
  = (im <- remap draw_outline G_1920 (solid 1920 1266 gray) ;;
     out <- add_watermark im ;;
     Some (G_1920, out)).
Proof.
  rewrite (main_unfold draw_outline add_watermark startup
             (solid 1920 1266 gray) (solid 1920 1266 gray) 1%float table_1920
             load_image_gray_1920 (proj1 table_1920_items)).
  reflexivity.
Qed.

Section GrayValues.
Variable draw_outline : Image -> polygon float -> Image.
Hypothesis draw_size : keeps_size draw_outline.
Hypothesis draw_valid : keeps_valid draw_outline.
#[local] Opaque scanned translation polygon_of filter.

Let input : Image := solid 1920 1266 gray.

  (** What the in-place remap leaves in the pixels of the gray image. *)
Lemma gray_values :
    exists im,
      remap draw_outline G_1920 input = Some im
      /\ size im = (1920, 1266)
      /\ (forall q,
            (forall item, In item (g_magics G_1920) -> scanned (snd item) q = false) ->
            keeps draw_outline q ->
            pixel_at im (fst q) (snd q) = gray)
      /\ (forall before name magic after q d,
            g_magics G_1920 = before ++ (name, magic) :: after ->
            scanned magic q = true ->
            (forall item, In item after -> scanned (snd item) q = false) ->
            translation G_1920 name magic = Some d ->
            (forall item, In item (g_magics G_1920) ->
               scanned (snd item) (fst q + fst d, snd q + snd d) = false) ->
            keeps draw_outline q ->
            keeps draw_outline (fst q + fst d, snd q + snd d) ->
            pixel_at im (fst q) (snd q) = [166; 166; 166])
      /\ (keeps draw_outline (1159, 601) -> keeps draw_outline (958, 236) ->
          pixel_at im 1159 601 = [215; 215; 215]).
Proof.
    destruct (gray_runs draw_outline (fun pixels => pixels) draw_size draw_valid
                (fun p S V => conj S V))
      as (l & im & E & Rm & R & Sz).
    exists im. split; [exact Rm|]. split; [exact Sz|]. split; [|split].
    - intros q N K.
      rewrite (remap_outside draw_outline (fun pixels => pixels) G_1920 l
                 (solid 1920 1266 gray) im q E R N K).
      apply solid_pixel.
    - intros before name magic after q d T Hs Na ET Ns Kq Ks.
      rewrite ops_unfold, T in E.
      pose proof R as R'. rewrite <- (app_nil_r l) in R'.
      destruct (remap_inside draw_outline (fun pixels => pixels) G_1920
                  before after name magic l [] (solid 1920 1266 gray) im q d
                  E R' Hs ET Na (fun H => H) Kq)
        as (lb & c1 & im1 & Eb & S1 & _ & R1 & V).
      assert (P : pixel_at im1 (fst q + fst d) (snd q + snd d) = gray).
      { pose proof (prefix_outside draw_outline (fun pixels => pixels) G_1920 before
                      magic lb c1 (solid 1920 1266 gray) im1
                      (fst q + fst d, snd q + snd d) Eb S1 R1) as X.
        cbn [fst snd] in X. rewrite X.
        - apply solid_pixel.
        - intros item H. apply Ns. rewrite T. apply in_or_app. left. exact H.
        - apply (Ns (name, magic)). rewrite T. apply in_or_app. right. left. reflexivity.
        - exact Ks. }
      rewrite P in V. rewrite (proj1 filter_gray) in V. inversion V. reflexivity.
    - intros Kq Ks.
      destruct (gray_seam draw_outline (fun pixels => pixels) l im E R Kq Ks)
        as (im0 & im1 & P0 & V0 & V1).
      rewrite P0 in V0. rewrite (proj1 filter_gray) in V0.
      inversion V0 as [P1]. rewrite <- P1 in V1.
      rewrite (proj2 filter_gray) in V1. inversion V1. reflexivity.
Qed.


End GrayValues.

Lemma no_outline_keeps :
  keeps_size no_outline /\ keeps_valid no_outline /\ forall q, keeps no_outline q.
Proof.
  split; [intros im magic; reflexivity|].
  split; [intros im magic V; exact V | intros q im magic; reflexivity].
Qed.


(** C2, as the specification states it, fails.  On the solid gray
    1920 x 1266 image at scale 1, with no outline and no watermark drawn,
    the pixel (1159, 601) is scanned by the bottom-right region and ends
    with (215, 215, 215), not (166, 166, 166). *)
Lemma main_gray_seam_215 :
  exists G' out,
    main no_outline no_watermark startup (solid 1920 1266 gray) 1%float
    = Some (G', out)
    /\ scanned (polygon_of G' "bottom-right") (1159, 601) = true
    /\ pixel_at out 1159 601 = [215; 215; 215].
Proof.
  destruct no_outline_keeps as (KS & KV & K).
  destruct (gray_values no_outline KS KV) as (im & R & _ & _ & _ & V).
  exists G_1920, im. split.
  - rewrite main_1920, R. reflexivity.
  - split; [exact (proj2 (proj2 (proj2 (proj1 seam_pixels_1920)))) | exact (V (K _) (K _))].
Qed.

(** C2, amended.  For the 1920 x 1266 image whose every pixel is
    (128, 128, 128) and scale factor 1, whatever the drawing primitive (as
    long as it keeps the size of the image and byte channels): the remap
    succeeds, and in the image [main] hands to the watermark step
    - a pixel that no region scans and no outline touches is still
      (128, 128, 128);
    - a pixel scanned by one region and by no later one, whose mirrored
      source no region scans, is (166, 166, 166) when no outline touches it
      or its source;
    - the pixel (1159, 601) of the bottom-right region, whose source
      (958, 236) the top-left region has rewritten before, is
      (215, 215, 215) when no outline touches these two pixels. *)
Theorem main_gray_1920 (draw_outline : Image -> polygon float -> Image)
        (add_watermark : Image -> option Image) :
  keeps_size draw_outline -> keeps_valid draw_outline ->
  exists im,
    remap draw_outline G_1920 (solid 1920 1266 gray) = Some im
    /\ main draw_outline add_watermark startup (solid 1920 1266 gray) 1%float
       = (out <- add_watermark im ;; Some (G_1920, out))
    /\ size im = (1920, 1266)
    /\ (forall q,
          (forall item, In item (g_magics G_1920) -> scanned (snd item) q = false) ->
          keeps draw_outline q ->
          pixel_at im (fst q) (snd q) = gray)
    /\ (forall before name magic after q d,
          g_magics G_1920 = before ++ (name, magic) :: after ->
          scanned magic q = true ->
          (forall item, In item after -> scanned (snd item) q = false) ->
          translation G_1920 name magic = Some d ->
          (forall item, In item (g_magics G_1920) ->
             scanned (snd item) (fst q + fst d, snd q + snd d) = false) ->
          keeps draw_outline q ->
          keeps draw_outline (fst q + fst d, snd q + snd d) ->
          pixel_at im (fst q) (snd q) = [166; 166; 166])
    /\ scanned (polygon_of G_1920 "bottom-right") (1159, 601) = true
    /\ (keeps draw_outline (1159, 601) -> keeps draw_outline (958, 236) ->
        pixel_at im 1159 601 = [215; 215; 215]).
Proof.
  intros KS KV.
  destruct (gray_values draw_outline KS KV) as (im & R & Sz & V1 & V2 & V3).
  exists im. split; [exact R|]. split.
  - rewrite main_1920, R. reflexivity.
  - split; [exact Sz|]. split; [exact V1|]. split; [exact V2|].
    split; [exact (proj2 (proj2 (proj2 (proj1 seam_pixels_1920)))) | exact V3].
Qed.

(** With no outline and no watermark drawn: the corner (0, 0) keeps
    (128, 128, 128); the top-left pixel (900, 400), whose source
    (1101, 765) lies in no region, gets (166, 166, 166); the bottom-right
    pixel (1159, 601) gets (215, 215, 215). *)
Lemma main_gray_1920_no_outline :
  exists im,
    main no_outline no_watermark startup (solid 1920 1266 gray) 1%float
    = Some (G_1920, im)
    /\ size im = (1920, 1266)
    /\ pixel_at im 0 0 = [128; 128; 128]
    /\ pixel_at im 900 400 = [166; 166; 166]
    /\ pixel_at im 1159 601 = [215; 215; 215].
Proof.
  destruct no_outline_keeps as (KS & KV & K).
  destruct (main_gray_1920 no_outline no_watermark KS KV)
    as (im & _ & M & Sz & V1 & V2 & _ & V3).
  exists im. split; [exact M|]. split; [exact Sz|].
  assert (N : forall q,
             scanned (polygon_of G_1920 "top-left") q = false ->
             scanned (polygon_of G_1920 "top-right") q = false ->
             scanned (polygon_of G_1920 "bottom-left") q = false ->
             scanned (polygon_of G_1920 "bottom-right") q = false ->
             forall item, In item (g_magics G_1920) -> scanned (snd item) q = false).
  { intros q H1 H2 H3 H4 item H. rewrite magics_1920 in H.
    destruct H as [<- | [<- | [<- | [<- | []]]]]; assumption. }
  split; [|split].
  - apply (V1 (0, 0)); [|apply K].
    apply N; vm_compute; reflexivity.
  - apply (V2 [] "top-left"%string (polygon_of G_1920 "top-left")
              [ ("top-right"%string, polygon_of G_1920 "top-right");
                ("bottom-left"%string, polygon_of G_1920 "bottom-left");
                ("bottom-right"%string, polygon_of G_1920 "bottom-right") ]
              (900, 400) (201, 365)).
    + exact magics_1920.
    + vm_compute; reflexivity.
    + intros item [<- | [<- | [<- | []]]]; vm_compute; reflexivity.
    + exact (proj2 (proj2 (proj2 seam_pixels_1920))).
    + apply N; vm_compute; reflexivity.
    + apply K.
    + apply K.
  - apply V3; apply K.
Defined.

(* ================================================================== *)
(** * Further properties of the geometry scaler *)

(** X3.  In every number domain [scale] works vertex by vertex: the result
    has as many vertices as the polygon, and equal vertices are sent to
    equal vertices, so a ring that is closed (first vertex repeated at the
    end) stays closed. *)
Theorem scale_vertexwise {A : Type} `{Number A} (magic r : polygon A) (s : A)
        (width height : Z) :
  scale magic s width height = Some r ->
  List.length r = List.length magic
  /\ forall i j v, nth_error magic i = Some v -> nth_error magic j = Some v ->
                   nth_error r i = nth_error r j.
Proof.
  unfold scale. intros E. apply bind_Some in E. destruct E as (rs & E & E').
  inversion E'; subst r; clear E'. apply mapM_Some in E.
  split.
  - rewrite length_map. symmetry. exact (Forall2_length E).
  - intros i j v Hi Hj. rewrite !nth_error_map.
    assert (G : forall k, nth_error magic k = Some v ->
                exists v', resize s v = Some v' /\ nth_error rs k = Some v').
    { clear Hi Hj i j. induction E as [|a b magic rs Eab _ IH]; intros k Hk.
      - destruct k; discriminate.
      - destruct k as [|k]; cbn [nth_error] in *.
        + inversion Hk; subst. eauto.
        + apply IH. exact Hk. }
    destruct (G i Hi) as (vi & Ei & ->). destruct (G j Hj) as (vj & Ej & ->).
    congruence.
Qed.

Lemma scale_vertexwise_top_left :
  exists r,
    scale (polygon_of startup "top-left") 1%float 1920 1266 = Some r
    /\ List.length r = 4%nat
    /\ nth_error r 0 = nth_error r 3.
Proof.
  destruct (scale (polygon_of startup "top-left") 1%float 1920 1266) as [r|] eqn:E.
  - exists r. split; [reflexivity|].
    destruct (scale_vertexwise (polygon_of startup "top-left") r 1%float 1920 1266 E)
      as [L C].
    split; [exact L|].
    apply (C 0%nat 3%nat (0.5, 0.183)%float); vm_compute; reflexivity.
  - exfalso. vm_compute in E. discriminate E.
Defined.

(* ================================================================== *)
(** * Further properties of the crop box *)

(** [load_image] keeps the window [crop_window] of the decoded file. *)
Lemma load_image_window (file : Image) :
  load_image file
  = option_map
      (fun '(x0, y0, x1, y1) =>
         {| size := (x1 - x0, y1 - y0);
            pixel_at := fun x y => pixel_at file (x + x0) (y + y0) |})
      (crop_window (fst (size file)) (snd (size file))).
Proof.
  unfold load_image, crop_window, crop. destruct (size file) as [width height].
  cbn [fst snd].
  destruct (crop_box width height) as [[[[x_left y_upper] x_right] y_lower]|];
    cbn [Err.bind option_map]; [|reflexivity].
  destruct (PrimFloat.ltb x_right x_left || PrimFloat.ltb y_lower y_upper);
    [reflexivity|].
  destruct (round x_left) as [x0|]; cbn [Err.bind option_map]; [|reflexivity].
  destruct (round y_upper) as [y0|]; cbn [Err.bind option_map]; [|reflexivity].
  destruct (round x_right) as [x1|]; cbn [Err.bind option_map]; [|reflexivity].
  destruct (round y_lower) as [y1|]; cbn [Err.bind option_map]; reflexivity.
Qed.

(** The windows of the images 320 k x 211 k, which have the ratio
    1920:1266, for k up to 200. *)
Lemma in_ratio_table :
  forallb (fun k => match crop_window (320 * k) (211 * k) with
                    | Some (x0, y0, x1, y1) =>
                        (x0 =? 0) && (y0 =? 0) && (x1 =? 320 * k) && (y1 =? 211 * k)
                    | None => false
                    end) (range 1 201) = true.
Proof. vm_compute. reflexivity. Qed.

(** X4.  In binary64 the crop box of an image that already has the ratio
    1920:1266 need not be the whole image (for 320 x 211 it is
    (0, -1.42e-14, 320, 211.00000000000003)), but it rounds to it:
    [load_image] returns every image of size 320 k x 211 k, k = 1, ..., 200,
    as it is. *)
Theorem load_image_in_ratio (file : Image) (k : Z) :
  1 <= k <= 200 -> size file = (320 * k, 211 * k) ->
  load_image file = Some file.
Proof.
  intros Hk Sz. rewrite load_image_window, Sz. cbn [fst snd].
  pose proof (proj1 (forallb_forall _ _) in_ratio_table k) as T.
  cbv beta in T.
  destruct (crop_window (320 * k) (211 * k)) as [[[[x0 y0] x1] y1]|].
  - specialize (T ltac:(apply In_range; lia)).
    rewrite !andb_true_iff, !Z.eqb_eq in T. destruct T as [[[-> ->] ->] ->].
    cbn [option_map]. f_equal. apply image_ext; cbn [size pixel_at].
    + rewrite Sz, !Z.sub_0_r. reflexivity.
    + intros x y. rewrite !Z.add_0_r. reflexivity.
  - specialize (T ltac:(apply In_range; lia)). discriminate T.
Qed.

Lemma load_image_in_ratio_320 :
  load_image (solid 320 211 gray) = Some (solid 320 211 gray)
  /\ @crop_box float _ 320 211
     = Some (0, -1.4210854715202004e-14, 320, 211.00000000000003)%float.
Proof.
  split.
  - apply (load_image_in_ratio (solid 320 211 gray) 1); [lia | reflexivity].
  - vm_compute. reflexivity.
Defined.

(** The images up to 200 x 50 whose crop box is refused. *)
Lemma refused_table :
  forallb (fun wh =>
             Bool.eqb (match crop_window (fst wh) (snd wh) with
                       | Some _ => false
                       | None => true
                       end)
                      ((5760 * snd wh <? 1266 * fst wh)
                       || (3798 * fst wh <? 1920 * snd wh)))
          (list_prod (range 1 201) (range 1 51)) = true.
Proof. vm_compute. reflexivity. Qed.

(** X5.  The left (upper) edge of the crop box is half the excess and the
    right (lower) edge the target width (height), so the box is inverted,
    and [crop] refuses it, as soon as the image is more than three times as
    wide, or as tall, as the ratio 1920:1266 allows.  In binary64, for every
    image of width 1..200 and height 1..50, [load_image] raises exactly
    then. *)
Theorem load_image_raises_iff (file : Image) (width height : Z) :
  1 <= width <= 200 -> 1 <= height <= 50 -> size file = (width, height) ->
  load_image file = None
  <-> 3 * 1920 * height < 1266 * width \/ 3 * 1266 * width < 1920 * height.
Proof.
  intros Hw Hh Sz. rewrite load_image_window, Sz. cbn [fst snd].
  pose proof (proj1 (forallb_forall _ _) refused_table (width, height)) as T.
  cbv beta in T. cbn [fst snd] in T.
  specialize (T ltac:(apply in_prod; apply In_range; lia)).
  apply Bool.eqb_prop in T.
  destruct (crop_window width height) as [[[[x0 y0] x1] y1]|]; cbn [option_map].
  - split; [discriminate|]. intros C. exfalso.
    symmetry in T. apply orb_false_iff in T. destruct T as [T1 T2].
    apply Z.ltb_ge in T1, T2. lia.
  - split; [|reflexivity]. intros _.
    symmetry in T. apply orb_true_iff in T. rewrite !Z.ltb_lt in T. lia.
Qed.

Lemma load_image_raises_iff_200 :
  load_image (solid 200 40 gray) = None
  /\ (load_image (solid 200 40 gray) = None
      <-> 3 * 1920 * 40 < 1266 * 200 \/ 3 * 1266 * 200 < 1920 * 40).
Proof.
  assert (I : load_image (solid 200 40 gray) = None
              <-> 3 * 1920 * 40 < 1266 * 200 \/ 3 * 1266 * 200 < 1920 * 40).
  { apply (load_image_raises_iff (solid 200 40 gray) 200 40); [lia | lia | reflexivity]. }
  split; [|exact I]. apply I. left. lia.
Defined.

(** Larger images: the 6000 x 1266 image is refused, and so is the
    455 x 100 image, whose box is inverted by less than one pixel (left
    edge 151.67, right edge 151.66); the 454 x 100 image is cropped to
    width 1. *)
Example load_image_6000 :
  load_image (solid 6000 1266 gray) = None
  /\ load_image (solid 455 100 gray) = None
  /\ option_map size (load_image (solid 454 100 gray)) = Some (1, 100).
Proof.
  repeat match goal with |- _ /\ _ => split end; vm_compute; reflexivity.
Qed.

(* ================================================================== *)
(** * Further properties of the filter *)

Lemma brighten_facts (c : Z) :
  0 <= c <= 255 ->
  c <= brighten c <= 255 /\ (brighten c = c <-> c <= 3 \/ c = 255).
Proof.
  intros H. unfold brighten.
  pose proof (Z.div_mod (c * 13) 10 ltac:(lia)) as D.
  pose proof (Z.mod_pos_bound (c * 13) 10 ltac:(lia)) as M.
  lia.
Qed.

(** X6.  On a pixel of byte channels the filter keeps the number of channels
    (an alpha channel is brightened like the colours), never darkens a
    channel and never leaves the byte range; the only channel values it
    leaves unchanged are 0, 1, 2, 3 and 255. *)
Theorem filter_brightens (v : pixel) :
  valid_pixel v ->
  exists w,
    filter v = Some w
    /\ List.length w = List.length v
    /\ Forall2 (fun c r => c <= r <= 255 /\ (r = c <-> c <= 3 \/ c = 255)) v w.
Proof.
  intros V. exists (map brighten v). destruct (filter_valid v V) as [E _].
  split; [exact E|]. split; [apply length_map|]. clear E.
  unfold valid_pixel in V. induction V as [|c v Hc _ IH]; cbn [map].
  - constructor.
  - constructor; [apply brighten_facts; exact Hc | exact IH].
Qed.

Lemma filter_brightens_rgba :
  exists w,
    filter [3; 4; 200; 255] = Some w
    /\ List.length w = 4%nat
    /\ Forall2 (fun c r => c <= r <= 255 /\ (r = c <-> c <= 3 \/ c = 255))
               [3; 4; 200; 255] w.
Proof.
  apply (filter_brightens [3; 4; 200; 255]).
  repeat constructor; lia.
Defined.

(** An [int] too large for a float makes the filter raise; below that
    bound the product is clamped. *)
Example limit_huge : limit (2 ^ 1024) = None /\ limit (2 ^ 1023) = Some 255.
Proof. split; vm_compute; reflexivity. Qed.

(* ================================================================== *)
(** * Further properties of the command line *)

(** X7.  [main] is called exactly when there are at least two positional
    arguments, the first names an existing file and, if a third is given,
    [float] converts it; with a third argument that [float] refuses the
    entry block ends in an uncaught [ValueError] and [main] is not called.
    Every exit of the entry block has code 0; arguments after the scale are
    ignored. *)
Theorem entry_reaches_main (isfile : string -> bool)
        (to_float : string -> option float) (argv extra : list string) :
  existsb processes (entry isfile to_float argv)
  = (3 <=? List.length argv)%nat && isfile (nth 1 argv ""%string)
    && ((List.length argv =? 3)%nat
        || match to_float (nth 3 argv ""%string) with
           | Some _ => true
           | None => false
           end)
  /\ ((4 <= List.length argv)%nat -> isfile (nth 1 argv ""%string) = true ->
      to_float (nth 3 argv ""%string) = None ->
      entry isfile to_float argv
      = [ IsFile (nth 1 argv ""%string); Raise "ValueError" ])
  /\ ((4 <= List.length argv)%nat -> isfile (nth 1 argv ""%string) = true ->
      forall s, to_float (nth 3 argv ""%string) = Some s ->
      entry isfile to_float argv
      = [ IsFile (nth 1 argv ""%string);
          Main (nth 1 argv ""%string) (nth 2 argv ""%string) (Some s) ])
  /\ Forall (fun e => forall c, e = Exit c -> c = 0) (entry isfile to_float argv)
  /\ ((4 <= List.length argv)%nat ->
      entry isfile to_float (argv ++ extra) = entry isfile to_float argv).
Proof.
  split; [|split; [|split; [|split]]].
  - unfold entry. destruct (List.length argv <? 3)%nat eqn:L.
    + apply Nat.ltb_lt in L.
      destruct (3 <=? List.length argv)%nat eqn:L'; [apply Nat.leb_le in L'; lia|].
      reflexivity.
    + apply Nat.ltb_ge in L.
      destruct (3 <=? List.length argv)%nat eqn:L'; [|apply Nat.leb_gt in L'; lia].
      destruct (isfile (nth 1 argv ""%string)); cbn [negb andb].
      * destruct (List.length argv =? 3)%nat; [reflexivity|].
        destruct (to_float (nth 3 argv ""%string)); reflexivity.
      * reflexivity.
  - intros L F T. unfold entry.
    assert (L2 : (List.length argv <? 3)%nat = false) by (apply Nat.ltb_ge; lia).
    assert (L4 : (List.length argv =? 3)%nat = false) by (apply Nat.eqb_neq; lia).
    rewrite L2, F, L4, T. reflexivity.
  - intros L F s T. unfold entry.
    assert (L2 : (List.length argv <? 3)%nat = false) by (apply Nat.ltb_ge; lia).
    assert (L4 : (List.length argv =? 3)%nat = false) by (apply Nat.eqb_neq; lia).
    rewrite L2, F, L4, T. reflexivity.
  - unfold entry. destruct (List.length argv <? 3)%nat.
    + repeat constructor; intros c E; inversion E; reflexivity.
    + destruct (negb (isfile (nth 1 argv ""%string))).
      * repeat constructor; intros c E; inversion E; reflexivity.
      * destruct (List.length argv =? 3)%nat;
          [|destruct (to_float (nth 3 argv ""%string))];
          repeat constructor; intros c E; inversion E.
  - intros L. unfold entry. rewrite length_app.
    assert (L1 : (List.length argv + List.length extra <? 3)%nat = false)
      by (apply Nat.ltb_ge; lia).
    assert (L2 : (List.length argv <? 3)%nat = false) by (apply Nat.ltb_ge; lia).
    assert (L3 : (List.length argv + List.length extra =? 3)%nat = false)
      by (apply Nat.eqb_neq; lia).
    assert (L4 : (List.length argv =? 3)%nat = false) by (apply Nat.eqb_neq; lia).
    rewrite L1, L2, L3, L4.
    rewrite !(app_nth1 argv extra) by lia. reflexivity.
Qed.

(** A command line whose third argument is not a number, and one with a
    fifth word; the conversion knows the text 2 only. *)
Example entry_ignores_fifth :
  let to_float := fun s : string =>
    if String.eqb s "2" then Some 2%float else None in
  entry (fun _ => true) to_float ["./main.py"; "in.png"; "out.png"; "abc"]%string
  = [ IsFile "in.png"; Raise "ValueError" ]
  /\ entry (fun _ => true) to_float
           ["./main.py"; "in.png"; "out.png"; "2"; "junk"]%string
     = [ IsFile "in.png"; Main "in.png" "out.png" (Some 2%float) ].
Proof. split; reflexivity. Qed.

(* ================================================================== *)
(** * Further properties of the remap *)


Lemma remap_48_runs :
  exists im', remap no_outline G_48 (solid 48 32 gray) = Some im'.
Proof.
  assert (X : match remap no_outline G_48 (solid 48 32 gray) with
              | Some _ => true
              | None => false
              end = true) by (vm_compute; reflexivity).
  destruct (remap no_outline G_48 (solid 48 32 gray)) as [im'|];
    [exists im'; reflexivity | discriminate X].
Qed.






(** X10.  When the remap is defined.  If the bounds of every region, and
    their translates, lie on the grid ([region_fits]), the in-place remap
    of an image of byte channels succeeds and returns an image of byte
    channels of the same size. *)
Theorem remap_succeeds (draw_outline : Image -> polygon float -> Image)
        (G : Globals) (width height : Z) (im : Image) :
  keeps_size draw_outline -> keeps_valid draw_outline ->
  size im = (width, height) -> valid_image im ->
  forallb (region_fits G width height) (g_magics G) = true ->
  exists im',
    remap draw_outline G im = Some im'
    /\ size im' = (width, height) /\ valid_image im'.
Proof.
  intros KS KV Sz V F.
  destruct (ops_fit G width height (g_magics G) F) as (l & E & B).
  destruct (run_succeeds draw_outline (fun pixels => pixels) KS l im KV
              (fun p S Vp => conj S Vp) V) as (im' & Er & Si & Vi).
  { intros t s C. destruct (B t s C) as [Bs Bt].
    unfold in_image. rewrite Sz. cbn [fst snd].
    rewrite !andb_true_iff, !Z.leb_le, !Z.ltb_lt. lia. }
  exists im'. unfold remap, remap_with. rewrite remap_fused. rewrite E.
  cbn [Err.bind]. rewrite Er, Si. auto.
Qed.

Lemma remap_succeeds_48 :
  exists im',
    remap no_outline G_48 (solid 48 32 gray) = Some im'
    /\ size im' = (48, 32) /\ valid_image im'.
Proof.
  apply (remap_succeeds no_outline G_48 48 32 (solid 48 32 gray)).
  - apply (proj1 no_outline_keeps).
  - apply (proj1 (proj2 no_outline_keeps)).
  - reflexivity.
  - apply valid_gray.
  - vm_compute. reflexivity.
Defined.

(* ================================================================== *)
(** * The outline *)

Lemma nth_outline (magic : polygon float) (i : nat) (d : segment) :
  (i < List.length magic)%nat ->
  nth i (outline_segments magic) d
  = (let a := nth i magic (0, 0)%float in
     let b := nth ((i + 1) mod List.length magic)%nat magic (0, 0)%float in
     (fst a, snd a, fst b, snd b)).
Proof.
  intros L. unfold outline_segments.
  set (f := fun i : nat => _).
  rewrite (nth_indep _ d (f 0%nat)) by (rewrite length_map, length_seq; exact L).
  rewrite map_nth. rewrite seq_nth by exact L. reflexivity.
Qed.

(** X11.  [draw_outline] draws one segment per vertex, and the segments
    form a closed loop: each ends where the next one starts, the last one
    ends where the first one starts.  An empty polygon draws nothing (the
    modulo by [len(magic)] is never evaluated), and for a ring whose first
    vertex is repeated at the end the last segment has no length. *)
Theorem outline_closed_loop (magic : polygon float) (d : segment) :
  List.length (outline_segments magic) = List.length magic
  /\ (magic = [] -> outline_segments magic = [])
  /\ (forall i, (i < List.length magic)%nat ->
        seg_start (nth i (outline_segments magic) d) = nth i magic (0, 0)%float
        /\ seg_end (nth i (outline_segments magic) d)
           = seg_start (nth ((i + 1) mod List.length magic)%nat
                            (outline_segments magic) d))
  /\ (forall v rest, magic = v :: rest ++ [v] ->
        nth (List.length magic - 1) (outline_segments magic) d
        = (fst v, snd v, fst v, snd v)).
Proof.
  split; [|split; [|split]].
  - unfold outline_segments. rewrite length_map, length_seq. reflexivity.
  - intros ->. reflexivity.
  - intros i L.
    assert (L' : ((i + 1) mod List.length magic < List.length magic)%nat)
      by (apply Nat.mod_upper_bound; lia).
    rewrite (nth_outline magic i d L), (nth_outline magic _ d L').
    unfold seg_start, seg_end. cbn [fst snd].
    split; [|reflexivity].
    destruct (nth i magic (0, 0)%float); reflexivity.
  - intros v rest ->.
    set (magic := v :: rest ++ [v]).
    assert (Len : List.length magic = S (S (List.length rest))).
    { unfold magic. cbn [List.length]. rewrite length_app. cbn [List.length]. lia. }
    rewrite (nth_outline magic _ d) by lia.
    replace ((List.length magic - 1 + 1) mod List.length magic)%nat with 0%nat.
    + replace (nth (List.length magic - 1) magic (0, 0)%float) with v.
      * reflexivity.
      * rewrite Len. unfold magic. cbn [Nat.sub nth].
        rewrite app_nth2 by lia.
        rewrite Nat.sub_diag. reflexivity.
    + replace (List.length magic - 1 + 1)%nat with (List.length magic) by lia.
      symmetry. apply Nat.Div0.mod_same.
Qed.

Example outline_top_left_48 :
  outline_segments (polygon_of G_48 "top-left")
  = [ (24, 5.8559999999999999, 18.864000000000001, 14.24);
      (18.864000000000001, 14.24, 24, 17.216000000000001);
      (24, 17.216000000000001, 24, 5.8559999999999999);
      (24, 5.8559999999999999, 24, 5.8559999999999999) ]%float.
Proof. vm_compute. reflexivity. Qed.

Lemma fold_left_invariant {A B : Type} (P : A -> Prop) (f : A -> B -> A)
      (l : list B) (a : A) :
  (forall a b, P a -> P (f a b)) -> P a -> P (fold_left f l a).
Proof.
  intros Hf. revert a. induction l as [|b l IH]; intros a Ha; cbn [fold_left].
  - exact Ha.
  - apply IH, Hf, Ha.
Qed.

(** X12.  [draw_outline] changes the image only through the line primitive:
    if drawing a line keeps the size of the image, or byte channels, or the
    value of a given pixel, then so does drawing the outline of any
    polygon. *)
Theorem draw_outline_inherits (line : Image -> segment -> pixel -> Image) :
  ((forall im seg c, size (line im seg c) = size im) ->
   keeps_size (draw_outline_with line))
  /\ ((forall im seg c, valid_pixel c -> valid_image im ->
                        valid_image (line im seg c)) ->
      keeps_valid (draw_outline_with line))
  /\ (forall q,
        (forall im seg c, pixel_at (line im seg c) (fst q) (snd q)
                          = pixel_at im (fst q) (snd q)) ->
        keeps (draw_outline_with line) q).
Proof.
  split; [|split].
  - intros H im magic. unfold draw_outline_with.
    apply (fold_left_invariant (fun p => size p = size im)); [|reflexivity].
    intros p seg E. rewrite H. exact E.
  - intros H im magic V. unfold draw_outline_with.
    apply (fold_left_invariant valid_image); [|exact V].
    intros p seg Vp. apply H; [|exact Vp].
    unfold fill_color, valid_pixel. repeat constructor; lia.
  - intros q H im magic. unfold draw_outline_with.
    apply (fold_left_invariant
             (fun p => pixel_at p (fst q) (snd q) = pixel_at im (fst q) (snd q)));
      [|reflexivity].
    intros p seg E. rewrite H. exact E.
Qed.

(* ================================================================== *)
(** * The progress messages *)

(** The percentages 10, 20, ..., 10 n. *)
Lemma tens_snoc (n : nat) :
  map (fun k => 10 * Z.of_nat k) (seq 1 (S n))
  = map (fun k => 10 * Z.of_nat k) (seq 1 n) ++ [10 * Z.of_nat (S n)].
Proof. rewrite seq_S, map_app. reflexivity. Qed.

Lemma progress_step_tens (todo : Z) (st st' : Z * Z * list Z) :
  progress_step todo st = Some st' ->
  (exists n, snd (fst st) = Z.of_nat (S n)
             /\ snd st = map (fun k => 10 * Z.of_nat k) (seq 1 n)
             /\ Z.of_nat n <= fst (fst st)) ->
  exists n, snd (fst st') = Z.of_nat (S n)
            /\ snd st' = map (fun k => 10 * Z.of_nat k) (seq 1 n)
            /\ Z.of_nat n <= fst (fst st').
Proof.
  destruct st as [[done mul] written]. unfold progress_step.
  intros E (n & Hm & Hw & Hd). cbn [fst snd] in *.
  apply bind_Some in E. destruct E as (due & _ & E).
  destruct (done + 1 =? due); inversion E; subst; clear E; cbn [fst snd].
  - exists (S n). split; [lia|]. split; [|lia].
    rewrite tens_snoc. f_equal. f_equal. lia.
  - exists n. split; [reflexivity|]. split; [reflexivity | lia].
Qed.

(** X13.  The progress messages of a complete run are 10%, 20%, ... in
    order, without gap or repetition, up to some last one.  (A message is
    written only when the column count equals the milestone exactly, so the
    sequence may stop early.) *)
Theorem progress_tens (table : dict (polygon float)) (written : list Z) :
  progress table = Some written ->
  exists n, written = map (fun k => 10 * Z.of_nat k) (seq 1 n).
Proof.
  unfold progress. intros E.
  destruct (Err.foldM progress_region (map snd table) (0, 1, [])) as [st|] eqn:F;
    [|discriminate].
  cbn [option_map] in E. inversion E; subst written; clear E.
  assert (G : forall items st0 st1,
             Err.foldM progress_region items st0 = Some st1 ->
             (exists n, snd (fst st0) = Z.of_nat (S n)
                        /\ snd st0 = map (fun k => 10 * Z.of_nat k) (seq 1 n)
                        /\ Z.of_nat n <= fst (fst st0)) ->
             exists n, snd (fst st1) = Z.of_nat (S n)
                       /\ snd st1 = map (fun k => 10 * Z.of_nat k) (seq 1 n)
                       /\ Z.of_nat n <= fst (fst st1)).
  { induction items as [|magic items IH]; intros st0 st1 E I; cbn [Err.foldM] in E.
    - inversion E; subst. exact I.
    - apply bind_Some in E. destruct E as (st2 & E2 & E).
      apply (IH st2 st1 E). clear IH E.
      unfold progress_region in E2.
      apply bind_Some in E2. destruct E2 as (ring & _ & E2).
      apply bind_Some in E2. destruct E2 as ([[[min_x min_y] max_x] max_y] & _ & E2).
      revert st0 I E2.
      generalize (Qceiling max_x - Qfloor min_x) as todo.
      generalize (range (Qfloor min_x) (Qceiling max_x)) as xs.
      induction xs as [|x xs IHx]; intros todo st0 I E2; cbn [Err.foldM] in E2.
      + inversion E2; subst. exact I.
      + apply bind_Some in E2. destruct E2 as (st3 & E3 & E2).
        apply (IHx todo st3); [|exact E2].
        exact (progress_step_tens todo st0 st3 E3 I). }
  destruct (G _ _ _ F) as (n & _ & W & _).
  - exists 0%nat. cbn [fst snd seq map]. repeat split; lia.
  - exists n. exact W.
Qed.

(** On the 1920 x 1266 image at scale 1 all ten messages are written. *)
Lemma progress_tens_1920 :
  exists n, [10; 20; 30; 40; 50; 60; 70; 80; 90; 100]
            = map (fun k => 10 * Z.of_nat k) (seq 1 n).
Proof.
  apply (progress_tens table_1920).
  vm_compute. reflexivity.
Defined.

(** On a 48 x 32 image the messages stop at 20%. *)
Example progress_48 : progress (g_magics G_48) = Some [10; 20].
Proof. vm_compute. reflexivity. Qed.

(* ================================================================== *)
(** * Exactly when the remap is defined *)

Lemma Polygon_bounds (magic : polygon float) (ring : list point) :
  Polygon magic = Some ring -> exists b, bounds ring = Some b.
Proof.
  unfold Polygon. destruct (List.length magic <? 3)%nat eqn:L; [discriminate|].
  intros E. apply mapM_Some in E. apply Forall2_length in E.
  apply Nat.ltb_ge in L. destruct ring as [|[x y] ring]; cbn [List.length] in E; [lia|].
  cbn [bounds]. eauto.
Qed.

Lemma region_ops_defined (G : Globals) (name : string) (magic : polygon float) :
  (exists ring, Polygon magic = Some ring) ->
  (forall q, scanned magic q = true -> exists d, translation G name magic = Some d) ->
  exists l, region_ops G (name, magic) = Some l.
Proof.
  intros [ring EP] HT. destruct (Polygon_bounds magic ring EP) as [b EB].
  destruct b as [[[min_x min_y] max_x] max_y].
  pose proof (fun q => scanned_spec magic ring min_x min_y max_x max_y q EP EB) as Hs.
  unfold region_ops. rewrite EP. cbn [Err.bind]. rewrite EB. cbn [Err.bind].
  set (pts := List.filter _ _) in *.
  destruct (translation G name magic) as [[xt yt]|] eqn:ET.
  - rewrite (mapM_map _ (fun xy => Copy xy (fst xy + xt, snd xy + yt)))
      by (intros; reflexivity).
    cbn [Err.bind]. eauto.
  - destruct pts as [|q pts'] eqn:P.
    + cbn [Err.mapM Err.bind]. eauto.
    + exfalso. destruct (HT q) as [d Ed]; [|discriminate Ed].
      apply Hs. left. reflexivity.
Qed.

Lemma region_ops_Polygon (G : Globals) (name : string) (magic : polygon float)
      (l : list op) :
  region_ops G (name, magic) = Some l -> exists ring, Polygon magic = Some ring.
Proof.
  unfold region_ops. destruct (Polygon magic) as [ring|]; [eauto | discriminate].
Qed.

Lemma ops_of_In (G : Globals) (items : dict (polygon float)) (l : list op)
      (item : string * polygon float) :
  ops_of G items = Some l -> In item items ->
  exists l1, region_ops G item = Some l1 /\ incl l1 l.
Proof.
  intros E H. apply in_split in H. destruct H as (before & after & ->).
  apply ops_of_app in E. destruct E as (lb & la & _ & E & ->).
  apply ops_of_cons in E. destruct E as (l1 & l2 & E1 & _ & ->).
  exists l1. split; [exact E1|].
  intros o Ho. apply in_or_app. right. apply in_or_app. left. exact Ho.
Qed.

Lemma ops_of_Copy (G : Globals) (items : dict (polygon float)) (l : list op)
      (t s : Z * Z) :
  ops_of G items = Some l -> In (Copy t s) l ->
  exists name magic d,
    In (name, magic) items /\ scanned magic t = true
    /\ translation G name magic = Some d
    /\ s = (fst t + fst d, snd t + snd d).
Proof.
  unfold ops_of.
  destruct (Err.mapM (region_ops G) items) as [ls|] eqn:E; cbn [option_map]; [|discriminate].
  intros E'; inversion E'; subst l; clear E'.
  apply mapM_Some in E. induction E as [|[name magic] l1 items' ls' E1 _ IH];
    cbn [List.concat]; [intros []|].
  intros C. apply in_app_or in C. destruct C as [C | C].
  - destruct (region_ops_spec G name magic l1 E1) as (copies & -> & _ & Hin & Hc).
    apply in_app_or in C. destruct C as [C | [C | []]]; [|discriminate C].
    destruct (Hc t s C) as (d & ET & ->).
    exists name, magic, d. split; [left; reflexivity|]. split; [|auto].
    apply Hin, In_targets. eauto.
  - destruct (IH C) as (name' & magic' & d & Hi & Hs & ET & ->).
    exists name', magic', d. split; [right; exact Hi | auto].
Qed.

Lemma ops_of_defined (G : Globals) (items : dict (polygon float)) :
  (forall name magic, In (name, magic) items ->
     (exists ring, Polygon magic = Some ring)
     /\ forall q, scanned magic q = true ->
                  exists d, translation G name magic = Some d) ->
  exists l, ops_of G items = Some l.
Proof.
  unfold ops_of. induction items as [|[name magic] items IH]; intros H; cbn [Err.mapM].
  - exists []. reflexivity.
  - destruct (H name magic (or_introl eq_refl)) as [HP HT].
    destruct (region_ops_defined G name magic HP HT) as [l1 ->]. cbn [Err.bind].
    destruct IH as [l2 E2]; [intros n m Hi; apply H; right; exact Hi|].
    destruct (Err.mapM (region_ops G) items) as [ls|]; [|discriminate E2].
    cbn [Err.bind option_map]. eauto.
Qed.

(* ================================================================== *)
(** * The unguarded read and write, with the library's pixel access *)

(** The check [region_fits_wrapped] is sound: the operations of the region
    exist and every copy reads and writes at an index the library
    accepts. *)
Lemma region_fits_wrapped_sound (G : Globals) (width height : Z) (name : string)
      (magic : polygon float) :
  region_fits_wrapped G width height (name, magic) = true ->
  exists l, region_ops G (name, magic) = Some l
            /\ forall t s, In (Copy t s) l ->
                 reachable (width, height) s /\ reachable (width, height) t.
Proof.
  unfold region_fits_wrapped. simpl fst. simpl snd.
  destruct (Polygon magic) as [ring|] eqn:EP; [|discriminate].
  destruct (bounds ring) as [[[[min_x min_y] max_x] max_y]|] eqn:EB; [|discriminate].
  destruct (translation G name magic) as [[xt yt]|] eqn:ET; [|discriminate].
  rewrite !andb_true_iff, !Z.leb_le. intros H.
  assert (E : exists l, region_ops G (name, magic) = Some l).
  { unfold region_ops. rewrite EP. cbn [Err.bind]. rewrite EB. cbn [Err.bind].
    rewrite ET. cbn [Err.bind].
    rewrite (mapM_map _ (fun xy => Copy xy (fst xy + xt, snd xy + yt)))
      by (intros; reflexivity).
    cbn [Err.bind]. eauto. }
  destruct E as [l E]. exists l. split; [exact E|].
  destruct (region_ops_spec G name magic l E) as (copies & -> & _ & Hin & Hc).
  intros t s C. apply in_app_or in C. destruct C as [C | [C | []]]; [|discriminate].
  assert (Ht : scanned magic t = true) by (apply Hin, In_targets; eauto).
  destruct (Hc t s C) as (d & ET' & ->). rewrite ET in ET'. inversion ET'; subst d.
  apply (scanned_spec magic ring min_x min_y max_x max_y t EP EB) in Ht.
  apply filter_In in Ht. destruct Ht as [Ht _]. destruct t as [x y].
  apply in_prod_iff in Ht. rewrite !In_range in Ht.
  unfold reachable. cbn [fst snd]. lia.
Qed.

Lemma ops_fit_wrapped (G : Globals) (width height : Z)
      (items : dict (polygon float)) :
  forallb (region_fits_wrapped G width height) items = true ->
  exists l, ops_of G items = Some l
            /\ forall t s, In (Copy t s) l ->
                 reachable (width, height) s /\ reachable (width, height) t.
Proof.
  unfold ops_of. induction items as [|[name magic] items IH]; cbn [forallb Err.mapM].
  - intros _. exists []. split; [reflexivity | intros ? ? []].
  - rewrite andb_true_iff. intros [F1 F2].
    destruct (region_fits_wrapped_sound G width height name magic F1) as (l1 & -> & B1).
    destruct (IH F2) as (l2 & E2 & B2).
    destruct (Err.mapM (region_ops G) items) as [ls|]; [|discriminate].
    cbn [Err.bind option_map] in *. inversion E2; subst l2.
    exists (l1 ++ List.concat ls). split; [reflexivity|].
    intros t s C. apply in_app_or in C. destruct C; auto.
Qed.

(** A remap whose regions, and their translated copies, all lie between
    [- width] and [width], [- height] and [height], succeeds with the
    library's access on an image of byte channels. *)
Lemma pil_remap_fits (draw_outline : Image -> polygon float -> Image)
      (G : Globals) (width height : Z) (im : Image) :
  keeps_size draw_outline -> keeps_valid draw_outline ->
  size im = (width, height) -> valid_image im ->
  forallb (region_fits_wrapped G width height) (g_magics G) = true ->
  exists im', pil_remap draw_outline G im = Some im'
              /\ size im' = (width, height) /\ valid_image im'.
Proof.
  intros KS KV Sz V F.
  destruct (ops_fit_wrapped G width height (g_magics G) F) as (l & E & B).
  destruct (pil_run_succeeds draw_outline KS l im KV V) as (im' & Er & Si & Vi).
  { rewrite Sz. exact B. }
  exists im'. rewrite (pil_remap_fused draw_outline G im). unfold ops. rewrite E.
  cbn [Err.bind]. rewrite <- Sz, <- Si. auto.
Qed.

Lemma pil_main_unfold (draw_outline : Image -> polygon float -> Image)
      (add_watermark : Image -> option Image)
      (G : Globals) (file im : Image) (eth_scale : float)
      (table : dict (polygon float)) :
  load_image file = Some im ->
  rescale (g_magics G) eth_scale (fst (size im)) (snd (size im)) = Some table ->
  pil_main draw_outline add_watermark G file eth_scale
  = (im' <- pil_remap draw_outline {| g_magics := table; g_mirrors := g_mirrors G |} im ;;
     out <- add_watermark im' ;;
     Some ({| g_magics := table; g_mirrors := g_mirrors G |}, out)).
Proof.
  unfold pil_main. intros ->. cbn [Err.bind]. destruct (size im) as [w h].
  cbn [fst snd]. intros ->. reflexivity.
Qed.

(** The run on the solid gray 200 x 132 image at scale -1.575: the tables,
    and the bounds of the four regions. *)
Lemma run_200 :
  load_image (solid 200 132 gray) = Some (solid 200 132 gray)
  /\ rescale (g_magics startup) (-1.575)%float 200 132 = Some (g_magics G_200)
  /\ forallb (region_fits_wrapped G_200 200 132) (g_magics G_200) = true.
Proof.
  repeat match goal with |- _ /\ _ => split end; vm_compute; reflexivity.
Qed.

(** C10, as the specification states it, fails: the run of [main] on the
    solid gray 200 x 132 image at scale -1.575 returns an image although the
    top-left region scans the pixel (101, 59), whose source
    (101 - 33, 59 - 60) = (68, -1) lies above the first row; the library
    reads row 131 for it. *)
Lemma pil_main_negative_source_200 :
  (exists G' out,
     pil_main no_outline no_watermark startup (solid 200 132 gray) (-1.575)%float
     = Some (G', out))
  /\ lookup (g_magics G_200) "top-left" = Some (polygon_of G_200 "top-left")
  /\ scanned (polygon_of G_200 "top-left") (101, 59) = true
  /\ translation G_200 "top-left" (polygon_of G_200 "top-left") = Some (-33, -60)
  /\ in_image (solid 200 132 gray) (101 + -33) (59 + -60) = false
  /\ wrap (200, 132) (101 + -33, 59 + -60) = (68, 131).
Proof.
  split.
  - destruct run_200 as (L & T & F).
    rewrite (pil_main_unfold no_outline no_watermark startup (solid 200 132 gray)
               (solid 200 132 gray) (-1.575)%float (g_magics G_200) L T).
    destruct (pil_remap_fits no_outline G_200 200 132 (solid 200 132 gray)
                (proj1 no_outline_keeps) (proj1 (proj2 no_outline_keeps))
                eq_refl (valid_gray 200 132) F) as (im' & E & _).
    change {| g_magics := g_magics G_200; g_mirrors := g_mirrors startup |} with G_200.
    rewrite E. cbn [Err.bind no_watermark]. eauto.
  - repeat match goal with |- _ /\ _ => split end; vm_compute; reflexivity.
Qed.

(** C10, amended.  The program does not guard the read of the mirrored
    source pixel, and the library accepts the indices from [- width] to
    [width - 1] and from [- height] to [height - 1] only: as soon as one
    pixel [(x, y)] that a region scans has its source
    [(x + x_trans, y + y_trans)] outside these bounds, the remap fails.  The
    remap is therefore defined only when every such source lies within
    them. *)
Theorem pil_remap_read_unguarded (draw_outline : Image -> polygon float -> Image)
        (G : Globals) (im : Image) (name : string) (magic : polygon float)
        (x y x_trans y_trans : Z) :
  keeps_size draw_outline ->
  In (name, magic) (g_magics G) ->
  scanned magic (x, y) = true ->
  translation G name magic = Some (x_trans, y_trans) ->
  ~ reachable (size im) (x + x_trans, y + y_trans) ->
  pil_remap draw_outline G im = None.
Proof.
  intros KS H Hs ET B. rewrite (pil_remap_fused draw_outline G im). unfold ops.
  destruct (ops_of G (g_magics G)) as [l|] eqn:E; [|reflexivity]. cbn [Err.bind].
  destruct (pil_run draw_outline l im) as [im'|] eqn:R; [|reflexivity].
  pose proof (ops_In_Copy G _ l name magic (x, y) (x_trans, y_trans) E H Hs ET) as C.
  destruct (pil_run_reachable draw_outline KS l im im' _ _ R C) as [Bs _].
  cbn [fst snd] in Bs. contradiction.
Qed.

(** Nothing in the program establishes that precondition: with scale
    factor 2 on a 32 x 21 image the top-left region scans the pixel (11, 9),
    whose source (17, 21) lies below the last row, and [main] fails. *)
Lemma pil_remap_read_unguarded_32 :
  pil_remap no_outline G_32 (solid 32 21 gray) = None
  /\ pil_main no_outline no_watermark startup (solid 32 21 gray) 2%float = None.
Proof.
  split.
  - apply (pil_remap_read_unguarded no_outline G_32 (solid 32 21 gray)
             "top-left"%string
             (snd (nth 0 (g_magics G_32) (""%string, []))) 11 9 6 12).
    + intros im magic. reflexivity.
    + left. reflexivity.
    + vm_compute. reflexivity.
    + vm_compute. reflexivity.
    + unfold reachable. cbn [fst snd size solid]. lia.
  - vm_compute. reflexivity.
Defined.

(** X14.  On an image of byte channels, and with a drawing primitive that
    keeps the size of the image and byte channels, the remap with the
    library's pixel access succeeds exactly when every polygon of the table
    is a ring of at least three finite vertices and, for every pixel a
    region scans, the translation of the region is defined and both the
    pixel and its mirrored source are at indices the library accepts
    ([- width <= x < width], [- height <= y < height]).  Neither the write
    nor the read is guarded. *)
Theorem pil_remap_defined_iff (draw_outline : Image -> polygon float -> Image)
        (G : Globals) (im : Image) :
  keeps_size draw_outline -> keeps_valid draw_outline -> valid_image im ->
  (exists im', pil_remap draw_outline G im = Some im')
  <->
  (forall name magic, In (name, magic) (g_magics G) ->
     (exists ring, Polygon magic = Some ring)
     /\ forall q, scanned magic q = true ->
          exists d, translation G name magic = Some d
                    /\ reachable (size im) q
                    /\ reachable (size im) (fst q + fst d, snd q + snd d)).
Proof.
  intros KS KV V. rewrite (pil_remap_fused draw_outline G im). unfold ops. split.
  - intros [im' R]. apply bind_Some in R. destruct R as (l & E & R).
    intros name magic Hi.
    destruct (ops_of_In G (g_magics G) l (name, magic) E Hi) as (l1 & E1 & Inc).
    split; [exact (region_ops_Polygon G name magic l1 E1)|].
    intros q Hs.
    destruct (region_ops_spec G name magic l1 E1) as (copies & -> & _ & Hin & Hc).
    assert (C : In q (targets copies)) by (apply Hin; exact Hs).
    apply In_targets in C. destruct C as [s C].
    destruct (Hc q s C) as (d & ET & ->).
    exists d. split; [exact ET|].
    destruct (pil_run_reachable draw_outline KS l im im' q
                (fst q + fst d, snd q + snd d) R) as [Bs Bt].
    + apply Inc. apply in_or_app. left. exact C.
    + auto.
  - intros H.
    destruct (ops_of_defined G (g_magics G)) as [l E].
    { intros name magic Hi. destruct (H name magic Hi) as [HP HT].
      split; [exact HP|]. intros q Hs. destruct (HT q Hs) as (d & ET & _). eauto. }
    rewrite E. cbn [Err.bind].
    destruct (pil_run_succeeds draw_outline KS l im KV V) as (im' & Er & _).
    + intros t s C.
      destruct (ops_of_Copy G (g_magics G) l t s E C)
        as (name & magic & d & Hi & Hs & ET & ->).
      destruct (H name magic Hi) as [_ HT].
      destruct (HT t Hs) as (d' & ET' & Bt & Bs).
      rewrite ET in ET'. inversion ET'; subst d'. auto.
    + eauto.
Qed.

(** At scale 2 on a 32 x 21 image the condition fails, for the read of the
    source (17, 21) of the top-left pixel (11, 9): there is no result. *)
Example pil_remap_undefined_32 :
  scanned (polygon_of G_32 "top-left") (11, 9) = true
  /\ translation G_32 "top-left" (polygon_of G_32 "top-left") = Some (6, 12)
  /\ in_image (solid 32 21 gray) (wrap_index 32 (11 + 6)) (wrap_index 21 (9 + 12))
     = false
  /\ pil_remap no_outline G_32 (solid 32 21 gray) = None.
Proof.
  repeat match goal with |- _ /\ _ => split end; vm_compute; reflexivity.
Qed.

Lemma pil_remap_defined_iff_48 :
  (exists im', pil_remap no_outline G_48 (solid 48 32 gray) = Some im')
  <->
  (forall name magic, In (name, magic) (g_magics G_48) ->
     (exists ring, Polygon magic = Some ring)
     /\ forall q, scanned magic q = true ->
          exists d, translation G_48 name magic = Some d
                    /\ reachable (size (solid 48 32 gray)) q
                    /\ reachable (size (solid 48 32 gray))
                                 (fst q + fst d, snd q + snd d)).
Proof.
  apply (pil_remap_defined_iff no_outline G_48 (solid 48 32 gray)).
  - apply (proj1 no_outline_keeps).
  - apply (proj1 (proj2 no_outline_keeps)).
  - apply valid_gray.
Defined.

Lemma pil_main_agrees (draw_outline : Image -> polygon float -> Image)
      (add_watermark : Image -> option Image)
      (G : Globals) (file : Image) (eth_scale : float) (r : Globals * Image) :
  keeps_size draw_outline ->
  main draw_outline add_watermark G file eth_scale = Some r ->
  pil_main draw_outline add_watermark G file eth_scale = Some r.
Proof.
  intros KS. unfold main, pil_main.
  destruct (load_image file) as [im|]; cbn [Err.bind]; [|discriminate].
  destruct (size im) as [width height].
  destruct (rescale (g_magics G) eth_scale width height) as [table|];
    cbn [Err.bind]; [|discriminate].
  destruct (remap draw_outline {| g_magics := table; g_mirrors := g_mirrors G |} im)
    as [im'|] eqn:E; cbn [Err.bind]; [|discriminate].
  rewrite (pil_remap_agrees draw_outline KS _ im im' E). cbn [Err.bind].
  intros X; exact X.
Qed.

(** X16.  The remap on the grid and the remap with the library's pixel
    access agree wherever the first succeeds, and so do the two readings of
    [main]: a run that never leaves the grid never meets a negative
    index. *)
Theorem pil_remap_refines (draw_outline : Image -> polygon float -> Image)
        (add_watermark : Image -> option Image)
        (G : Globals) (im file : Image) (eth_scale : float) :
  keeps_size draw_outline ->
  (forall im', remap draw_outline G im = Some im' ->
               pil_remap draw_outline G im = Some im')
  /\ (forall r, main draw_outline add_watermark G file eth_scale = Some r ->
                pil_main draw_outline add_watermark G file eth_scale = Some r).
Proof.
  intros KS. split.
  - intros im'. apply pil_remap_agrees. exact KS.
  - intros r. apply pil_main_agrees. exact KS.
Qed.

Lemma pil_remap_refines_48 :
  exists im' G' out,
    remap no_outline G_48 (solid 48 32 gray) = Some im'
    /\ pil_remap no_outline G_48 (solid 48 32 gray) = Some im'
    /\ main no_outline no_watermark startup (solid 48 32 gray) 1%float
       = Some (G', out)
    /\ pil_main no_outline no_watermark startup (solid 48 32 gray) 1%float
       = Some (G', out).
Proof.
  destruct remap_48_runs as [im' R]. destruct main_48 as (G' & out & M & _).
  exists im', G', out.
  destruct (pil_remap_refines no_outline no_watermark G_48 (solid 48 32 gray)
              (solid 48 32 gray) 1%float (proj1 no_outline_keeps)) as [A _].
  destruct (pil_remap_refines no_outline no_watermark startup (solid 48 32 gray)
              (solid 48 32 gray) 1%float (proj1 no_outline_keeps)) as [_ B].
  split; [exact R|]. split; [exact (A im' R)|]. split; [exact M | exact (B _ M)].
Defined.

(* ================================================================== *)
(** * The watermark font size *)

Lemma font_size_table :
  forallb (fun w => match watermark_font_size w with
                    | Some r => r =? w / 40
                    | None => false
                    end) (range 0 8192) = true.
Proof. vm_compute. reflexivity. Qed.

(** X15.  For every image width below 8192 the watermark font size is the
    width divided by 40, rounded down (so an image narrower than 40 pixels
    asks for a font of size 0). *)
Theorem watermark_font_size_floor (width : Z) :
  0 <= width < 8192 ->
  watermark_font_size width = Some (width / 40).
Proof.
  intros H. pose proof font_size_table as T. rewrite forallb_forall in T.
  specialize (T width). rewrite In_range in T. specialize (T H).
  destruct (watermark_font_size width) as [r|]; [|discriminate T].
  apply Z.eqb_eq in T. subst r. reflexivity.
Qed.

Lemma watermark_font_size_1920 :
  watermark_font_size 1920 = Some 48 /\ watermark_font_size 39 = Some 0.
Proof.
  split.
  - apply (watermark_font_size_floor 1920). lia.
  - apply (watermark_font_size_floor 39). lia.
Defined.
